(** * qutip.qip.device.processor: pulse assembly of [Processor]

    A shallow embedding of [src/qutip/qip/device/processor.py].

    Conventions of the embedding
    - Python floats (time points, coefficients, tolerances) are the exact
      rationals [Q]; comparisons are the boolean ones of [QArith]. Reading
      a float from its decimal text rounds to the nearest double, ties to
      even, as [float()] does.
    - A Python exception is a value of [exn]; a call that may raise returns
      [result A].
    - [qutip.Qobj], the noise classes and the helpers of [qutip.qip.pulse]
      and [qutip.qip.noise] are imported by the module, not defined in it:
      they are the fields of the classes [QobjSig] and [PulseLib].
    - A pulse's [coeff] is dynamically typed in Python; [Coeff] lists the
      shapes the source distinguishes. *)

From Stdlib Require Import QArith Qround Qabs ZArith List String Lia Lqa.
From Stdlib Require Import SpecFloat.
From stdpp Require Import base list strings pretty gmap sorting.
From Equations Require Import Equations.

Set Default Proof Using "Type".
Local Open Scope string_scope.
Local Open Scope list_scope.

(** ** Exceptions and the error monad *)

Inductive exn : Type :=
| ValueError (msg : string)
| TypeError (msg : string)
| IndexError (msg : string)
| AttributeError (msg : string)
| OSError (msg : string).

Inductive result (A : Type) : Type :=
| Ok (a : A)
| Raise (e : exn).
Arguments Ok {A} a.
Arguments Raise {A} e.

#[export] Instance result_ret : MRet result := fun A a => Ok a.
#[export] Instance result_bind : MBind result := fun A B k m =>
  match m with
  | Ok a => k a
  | Raise e => Raise e
  end.

Definition raises {A} (m : result A) : Prop := ∃ e, m = Raise e.

(** [l[i]] for a non-negative index *)
Definition getitem {A} (l : list A) (i : nat) : result A :=
  match l !! i with
  | Some x => Ok x
  | None => Raise (IndexError "index out of range")
  end.

(** [len(x)] of an array that may be [None] *)
Definition len_opt {A} (x : option (list A)) : result nat :=
  match x with
  | Some l => Ok (length l)
  | None => Raise (TypeError "object of type 'NoneType' has no len()")
  end.

(** ** NumPy arrays of floats *)

Inductive NdArray : Type :=
| Arr0 (x : Q)
| Arr1 (a : list Q)
| Arr2 (rows : list (list Q)).

#[export] Instance Qle_dec : RelDecision Qle := fun x y =>
  match Qlt_le_dec y x with
  | left H => right (Qlt_not_le _ _ H)
  | right H => left H
  end.

(** [x > y] on floats *)
Definition Qgtb (x y : Q) : bool := negb (Qle_bool x y).

Definition np_hstack (arrays : list (list Q)) : list Q := concat arrays.

Definition np_sort (a : list Q) : list Q := merge_sort Qle a.

(** Skip the elements equal to the last one kept. *)
Fixpoint drop_eq (x : Q) (a : list Q) : list Q :=
  match a with
  | [] => []
  | y :: a' => if Qeq_bool x y then drop_eq x a' else y :: drop_eq y a'
  end.

(** [np.unique]: the sorted distinct elements *)
Definition np_unique (a : list Q) : list Q :=
  match np_sort a with
  | [] => []
  | x :: a' => x :: drop_eq x a'
  end.

(** [np.diff]: [a[i+1] - a[i]] *)
Fixpoint np_diff (a : list Q) : list Q :=
  match a with
  | x :: a' =>
    match a' with
    | y :: _ => (y - x)%Q :: np_diff a'
    | [] => []
    end
  | [] => []
  end.

(** [a[mask]] for a boolean mask *)
Fixpoint mask_select {A} (a : list A) (mask : list bool) : list A :=
  match a, mask with
  | x :: a', b :: mask' =>
    if b then x :: mask_select a' mask' else mask_select a' mask'
  | _, _ => []
  end.

Definition np_zeros (n : nat) : list Q := replicate n 0%Q.
Definition np_ones (n : nat) : list Q := replicate n 1%Q.

(** [a.T] of a two-dimensional array given by its rows *)
Definition transpose (rows : list (list Q)) : list (list Q) :=
  match rows with
  | [] => []
  | r0 :: _ =>
    map (fun j => map (fun row => nth j row 0%Q) rows) (seq 0 (length r0))
  end.

Definition ndarray_T (a : NdArray) : NdArray :=
  match a with
  | Arr2 rows => Arr2 (transpose rows)
  | _ => a
  end.

(** [coeffs[m, n]] *)
Definition getitem2 (a : NdArray) (m n : nat) : result Q :=
  match a with
  | Arr2 rows => row ← getitem rows m; getitem row n
  | _ => Raise (IndexError "too many indices for array")
  end.

(** ** Data model *)

(** [pulse.coeff]: [None], a Python [bool], a NumPy array, or any other
    object (a callable, a string, a list, a NumPy scalar); of the last
    only [len()] is ever observed, [None] when the object has no length. *)
Inductive Coeff : Type :=
| CNone
| CBool (b : bool)
| CArray (a : list Q)
| COther (olen : option nat).

Definition coeff_is_None (c : Coeff) : bool :=
  match c with CNone => true | _ => false end.

Definition coeff_is_bool (c : Coeff) : bool :=
  match c with CBool _ => true | _ => false end.

(** [len(pulse.coeff)] *)
Definition len_coeff (c : Coeff) : result Z :=
  match c with
  | CNone => Raise (TypeError "object of type 'NoneType' has no len()")
  | CBool _ => Raise (TypeError "object of type 'bool' has no len()")
  | CArray a => Ok (Z.of_nat (length a))
  | COther (Some n) => Ok (Z.of_nat n)
  | COther None => Raise (TypeError "object has no len()")
  end.

(** [qutip.Qobj] and the values the processor only passes on. [qadd],
    [qscale], [q_minus_i], [expm] are [A + B], [c * A], [-1j * A] and
    [A.expm()]; [globalphase] is [qutip.qip.operations.gates.globalphase]. *)
Class QobjSig : Type := {
  Qobj : Type;
  Noise : Type;
  KwVal : Type;
  SolverResult : Type;
  isherm : Qobj → bool;
  dims0_len : Qobj → nat;
  qadd : Qobj → Qobj → Qobj;
  qscale : Q → Qobj → Qobj;
  q_minus_i : Qobj → Qobj;
  expm : Qobj → Qobj;
  globalphase : Q → nat → Qobj
}.

(** The argument of [isinstance(qobj, Qobj)] *)
Inductive PyOperand `{QobjSig} : Type :=
| IsQobj (q : Qobj)
| NotQobj.

(** A number that is the Python integer [0] or a [Qobj]: [H_drift = 0],
    [sum([...])]. *)
Inductive Ham `{QobjSig} : Type :=
| HZero
| HQobj (q : Qobj).

(** [qutip.qip.pulse.Pulse], the fields the processor reads and writes. *)
Record Pulse `{QobjSig} : Type := mkPulse {
  qobj : Qobj;
  targets : list Z;
  tlist : option (list Q);
  coeff : Coeff;
  spline_kind : option string;
  label : option string
}.
Arguments mkPulse {_} _ _ _ _ _ _.

(** [qutip.qip.pulse.Drift]: the list [drift_hamiltonians] of operators
    with their targets. *)
Record Drift `{QobjSig} : Type := mkDrift {
  drift_hamiltonians : list (Qobj * list Z)
}.
Arguments mkDrift {_} _.

(** [t1], [t2]: [None], a float or a list of floats *)
Inductive Relax : Type :=
| RelaxNone
| RelaxFloat (t : Q)
| RelaxList (ts : list Q).

(** [Processor]. The attribute [N] is named after its property
    [num_qubits]; [self.spline_kind] is [proc_spline_kind]. The pulse list
    and the drift are held by value ([list Pulse], [Drift]) where only
    their contents matter, and by address where their identity does. *)
Record Processor_ `{QobjSig} (PL DR : Type) : Type := mkProcessor {
  num_qubits : nat;
  pulses : PL;
  t1 : Relax;
  t2 : Relax;
  noise : list Noise;
  drift : DR;
  dims : list nat;
  proc_spline_kind : string
}.
Arguments mkProcessor {_ PL DR} _ _ _ _ _ _ _ _.
Arguments num_qubits {_ PL DR} _.
Arguments pulses {_ PL DR} _.
Arguments t1 {_ PL DR} _.
Arguments t2 {_ PL DR} _.
Arguments noise {_ PL DR} _.
Arguments drift {_ PL DR} _.
Arguments dims {_ PL DR} _.
Arguments proc_spline_kind {_ PL DR} _.

Abbreviation Processor := (Processor_ (list Pulse) Drift).

Definition set_pulses `{QobjSig} {PL PL' DR} (self : Processor_ PL DR)
    (ps : PL') : Processor_ PL' DR :=
  mkProcessor (num_qubits self) ps (t1 self) (t2 self) (noise self)
              (drift self) (dims self) (proc_spline_kind self).

Definition set_drift `{QobjSig} {PL DR DR'} (self : Processor_ PL DR)
    (d : DR') : Processor_ PL DR' :=
  mkProcessor (num_qubits self) (pulses self) (t1 self) (t2 self)
              (noise self) d (dims self) (proc_spline_kind self).

(** [Processor.__init__] *)
Definition init `{QobjSig} (N : nat) (t1 t2 : Relax)
    (dims : option (list nat)) (spline_kind : string) : Processor :=
  mkProcessor N [] t1 t2 [] (mkDrift [])
    (match dims with None => replicate N 2%nat | Some d => d end)
    spline_kind.

(** The helpers imported from [qutip.qip.pulse]. [get_ideal_qobj] and
    [drift_get_qobj] are the methods [Pulse.get_ideal_qobj(dims)] and
    [get_qobj(dims)] of a drift term; [_fill_coeff] receives
    [pulse.coeff], [pulse.tlist], [full_tlist] and whether
    [args["_step_func_coeff"]] is set. *)
Class PulseLib `{QobjSig} : Type := {
  get_ideal_qobj : Pulse → list nat → Qobj;
  drift_get_qobj : Qobj * list Z → list nat → Qobj;
  _fill_coeff :
    list Q → option (list Q) → option (list Q) → bool → result (list Q)
}.

(** What a subclass may override or add: the hook
    [eliminate_auxillary_modes], and the attributes [correct_global_phase]
    and [global_phase], [None] where the attribute does not exist. *)
Class Subclass `{QobjSig} : Type := {
  eliminate_auxillary_modes : Qobj → Qobj;
  correct_global_phase : option bool;
  global_phase : option Q
}.

(** The base class: [eliminate_auxillary_modes] returns [U]. *)
Definition base_class `{QobjSig} : Subclass := {|
  eliminate_auxillary_modes := fun U => U;
  correct_global_phase := None;
  global_phase := None
|}.

Section Device.
Context `{QS : QobjSig}.

(** ** [add_drift], [add_control] *)

(** The parameter [targets]: [None], a list, or a single index *)
Inductive TargetsArg : Type :=
| TargetsNone
| TargetsList (ts : list Z)
| TargetsInt (t : Z).

(** [targets] after
    [if targets is None: targets = list(range(num_qubits))] and
    [if not isinstance(targets, list): targets = [targets]] *)
Definition normalize_targets (num_qubits : nat) (targets : TargetsArg)
  : list Z :=
  match targets with
  | TargetsNone => map Z.of_nat (seq 0 num_qubits)
  | TargetsList ts => ts
  | TargetsInt t => [t]
  end.

(** [[(t + i) % self.N for t in targets]]; Python's [%] is [Z.modulo]. *)
Definition temp_targets (N i : nat) (targets : list Z) : list Z :=
  map (fun t => ((t + Z.of_nat i) `mod` Z.of_nat N)%Z) targets.

(** [Drift.add_drift(qobj, targets)] *)
Definition drift_add_drift (d : Drift) (q : Qobj) (targets : list Z)
  : Drift :=
  mkDrift (drift_hamiltonians d ++ [(q, targets)]).

Definition add_drift (self : Processor) (qobj : PyOperand)
    (targets : TargetsArg) (cyclic_permutation : bool) : result Processor :=
  match qobj with
  | NotQobj => Raise (TypeError "The drift Hamiltonian must be a qutip.Qobj.")
  | IsQobj q =>
    if negb (isherm q) then
      Raise (ValueError "The drift Hamiltonian must be Hermitian.")
    else
      let num_qubits_ := dims0_len q in
      let targets := normalize_targets num_qubits_ targets in
      if cyclic_permutation then
        Ok (set_drift self
              (foldl (fun d i =>
                        drift_add_drift d q
                          (temp_targets (num_qubits self) i targets))
                     (drift self) (seq 0 (num_qubits self))))
      else
        Ok (set_drift self (drift_add_drift (drift self) q targets))
  end.

(** [str(temp_targets)]: the list printed as [[a, b, c]] *)
Fixpoint str_items (l : list Z) : string :=
  match l with
  | [] => ""
  | [x] => pretty x
  | x :: l' => pretty x +:+ ", " +:+ str_items l'
  end.

Definition str_list (l : list Z) : string := "[" +:+ str_items l +:+ "]".

(** One turn of the loop [for i in range(self.N)] of [add_control]: the
    suffixed label is computed, then overwritten by [temp_label = label]. *)
Definition add_control_step (N : nat) (q : Qobj) (targets : list Z)
    (spline_kind : string) (label : option string)
    (pulses : list Pulse) (i : nat) : list Pulse :=
  let temp_targets := temp_targets N i targets in
  let temp_label :=
    match label with
    | Some l => Some (l +:+ "_" +:+ str_list temp_targets)
    | None => None
    end in
  let temp_label := label in
  pulses ++ [mkPulse q temp_targets None CNone (Some spline_kind) temp_label].

Definition add_control (self : Processor) (qobj : PyOperand)
    (targets : TargetsArg) (cyclic_permutation : bool)
    (label : option string) : result Processor :=
  match qobj with
  | NotQobj =>
    Raise (TypeError "The control Hamiltonian must be a qutip.Qobj.")
  | IsQobj q =>
    if negb (isherm q) then
      Raise (ValueError "The control Hamiltonian must be Hermitian.")
    else
      let num_qubits_ := dims0_len q in
      let targets := normalize_targets num_qubits_ targets in
      if cyclic_permutation then
        Ok (set_pulses self
              (foldl (add_control_step (num_qubits self) q targets
                        (proc_spline_kind self) label)
                     (pulses self) (seq 0 (num_qubits self))))
      else
        Ok (set_pulses self
              (pulses self ++
               [mkPulse q targets None CNone (Some (proc_spline_kind self))
                        label]))
  end.

(** ** The properties [coeffs], and [set_all_tlist], [add_pulse] *)

Definition coeffs (self : Processor) : option (list Coeff) :=
  match pulses self with
  | [] => None
  | ps => Some (map coeff ps)
  end.

Definition set_coeff (pulse : Pulse) (c : Coeff) : Pulse :=
  mkPulse (qobj pulse) (targets pulse) (tlist pulse) c
          (spline_kind pulse) (label pulse).

Definition set_tlist (pulse : Pulse) (t : option (list Q)) : Pulse :=
  mkPulse (qobj pulse) (targets pulse) t (coeff pulse)
          (spline_kind pulse) (label pulse).

Definition set_spline_kind (pulse : Pulse) (k : option string) : Pulse :=
  mkPulse (qobj pulse) (targets pulse) (tlist pulse) (coeff pulse)
          k (label pulse).

(** The setter of [coeffs]:
    [for i, coeff in enumerate(coeffs_list): self.pulses[i].coeff = coeff] *)
Fixpoint coeffs_setter_loop (pulses : list Pulse) (i : nat)
    (coeffs_list : list Coeff) : result (list Pulse) :=
  match coeffs_list with
  | [] => Ok pulses
  | c :: rest =>
    match pulses !! i with
    | None => Raise (IndexError "list index out of range")
    | Some pulse =>
      coeffs_setter_loop (<[i := set_coeff pulse c]> pulses) (S i) rest
    end
  end.

(** Iterating a NumPy array: the rows of a matrix, the scalars of a
    vector (NumPy floats, which have no [len()]). *)
Definition iter_ndarray (a : NdArray) : result (list Coeff) :=
  match a with
  | Arr0 _ => Raise (TypeError "iteration over a 0-d array")
  | Arr1 xs => Ok (map (fun _ => COther None) xs)
  | Arr2 rows => Ok (map CArray rows)
  end.

Definition set_coeffs (self : Processor) (coeffs_list : NdArray)
  : result Processor :=
  cl ← iter_ndarray coeffs_list;
  ps ← coeffs_setter_loop (pulses self) 0 cl;
  Ok (set_pulses self ps).

(** [set_all_tlist] for an argument that is no Python list (a NumPy array
    or [None]), the [else] branch: [read_coeff] passes [data[:, 0]]. The
    branch for a list of per-pulse grids is left out. *)
Definition set_all_tlist (self : Processor) (tlist : option (list Q))
  : Processor :=
  set_pulses self (map (fun pulse => set_tlist pulse tlist) (pulses self)).

Definition add_pulse (self : Processor) (pulse : Pulse) : Processor :=
  let pulse :=
    match spline_kind pulse with
    | None => set_spline_kind pulse (Some (proc_spline_kind self))
    | Some _ => pulse
    end in
  set_pulses self (pulses self ++ [pulse]).

(** ** [remove_pulse] *)

(** [del l[ind]] *)
Definition py_del {A} (l : list A) (ind : Z) : result (list A) :=
  let n := Z.of_nat (length l) in
  if ((0 <=? ind) && (ind <? n))%Z then Ok (delete (Z.to_nat ind) l)
  else if ((- n <=? ind) && (ind <? 0))%Z
       then Ok (delete (Z.to_nat (ind + n)) l)
       else Raise (IndexError "list assignment index out of range").

(** The parameter [indices]: [None], one index, or a list of them *)
Inductive IndicesArg : Type :=
| IndicesNone
| IndicesInt (i : Z)
| IndicesList (l : list Z).

(** [indices.sort(reverse=True)] *)
Definition sort_reverse (l : list Z) : list Z :=
  merge_sort (flip Z.le) l.

Fixpoint del_loop (pulses : list Pulse) (indices : list Z)
  : result (list Pulse) :=
  match indices with
  | [] => Ok pulses
  | ind :: rest => ps ← py_del pulses ind; del_loop ps rest
  end.

(** A value together with the equation that it is the one inspected. *)
Definition inspect {A} (x : A) : {y : A | x = y} := exist _ x eq_refl.

(** [for ind, pulse in enumerate(self.pulses)] with [del self.pulses[ind]]
    in its body: the list iterator holds the position [ind] and stops when
    [ind] reaches the current length of the list it iterates, which the
    body shortens. *)
Equations? remove_label_loop (label_ : option string) (ind : nat)
    (pulses : list Pulse) : list Pulse by wf (length pulses - ind) lt :=
  remove_label_loop label_ ind pulses with inspect (pulses !! ind) => {
    | exist _ None _ := pulses;
    | exist _ (Some pulse) Hp with decide (label pulse = label_) => {
      | left _ := remove_label_loop label_ (S ind) (delete ind pulses);
      | right _ := remove_label_loop label_ (S ind) pulses } }.
Proof.
  all: apply lookup_lt_Some in Hp.
  - rewrite length_delete by (apply lookup_lt_is_Some_2; lia). lia.
  - lia.
Qed.

Definition remove_pulse (self : Processor) (indices : IndicesArg)
    (label : option string) : result Processor :=
  match indices with
  | IndicesInt i =>
    ps ← del_loop (pulses self) (sort_reverse [i]);
    Ok (set_pulses self ps)
  | IndicesList l =>
    ps ← del_loop (pulses self) (sort_reverse l);
    Ok (set_pulses self ps)
  | IndicesNone =>
    Ok (set_pulses self (remove_label_loop label 0 (pulses self)))
  end.

(** ** [_is_pulses_valid] *)

Definition msg_no_tlist (i : nat) : string :=
  "Pulse id=" +:+ pretty i +:+ " is invalid. " +:+
  "Please define a tlist for the pulse.".

Definition msg_no_coeff (i : nat) : string :=
  "Pulse id=" +:+ pretty i +:+ " is invalid. " +:+
  "Please define a coeff for the pulse.".

Definition msg_len_step (i : nat) : string :=
  "The length of tlist and coeff of the pulse " +:+
  "labelled " +:+ pretty i +:+ " is invalid. " +:+
  "It's either len(tlist)=len(coeff) or " +:+
  "len(tlist)-1=len(coeff) for coefficients " +:+
  "as step function".

Definition msg_len_other (i : nat) : string :=
  "The length of tlist and coeff of the pulse " +:+
  "labelled " +:+ pretty i +:+ " is invalid. " +:+
  "It should be either len(tlist)=len(coeff)".

(** The body of the loop [for i, pulse in enumerate(self.pulses)]; [Ok tt]
    is [continue] or the end of the body. *)
Definition check_pulse (i : nat) (pulse : Pulse) : result unit :=
  if coeff_is_None (coeff pulse) || coeff_is_bool (coeff pulse) then
    (* constant pulse *)
    Ok tt
  else
    match tlist pulse with
    | None => Raise (ValueError (msg_no_tlist i))
    | Some tl =>
      if coeff_is_None (coeff pulse) then
        Raise (ValueError (msg_no_coeff i))
      else
        coeff_len ← len_coeff (coeff pulse);
        let tlist_len := Z.of_nat (length tl) in
        if decide (spline_kind pulse = Some "step_func") then
          if ((coeff_len =? tlist_len - 1) || (coeff_len =? tlist_len))%Z
          then Ok tt
          else Raise (ValueError (msg_len_step i))
        else
          if (coeff_len =? tlist_len)%Z
          then Ok tt
          else Raise (ValueError (msg_len_other i))
    end.

Fixpoint valid_loop (i : nat) (pulses : list Pulse) : result bool :=
  match pulses with
  | [] => Ok true
  | pulse :: rest => check_pulse i pulse;; valid_loop (S i) rest
  end.

Definition _is_pulses_valid (self : Processor) : result bool :=
  valid_loop 0 (pulses self).

(** ** [get_full_tlist] *)

(** The default [tol=1.0e-10] *)
Definition default_tol : Q := 1e-10%Q.

Definition get_full_tlist (self : Processor) (tol : Q)
  : option (list Q) :=
  let full_tlist := omap tlist (pulses self) in
  match full_tlist with
  | [] => None
  | _ =>
    let full_tlist := np_unique (np_sort (np_hstack full_tlist)) in
    (* account for inaccuracy in float-point number *)
    Some (take 1 full_tlist ++
          mask_select (drop 1 full_tlist)
                      (map (fun d => Qgtb d tol) (np_diff full_tlist)))
  end.

(** ** [get_full_coeffs] *)

Context `{PL : !PulseLib}.

Definition msg_unsupported_coeff : string :=
  "get_full_coeffs only works for " +:+
  "NumPy array or bool coeff.".

(** The body of the loop [for pulse in self.pulses]: the row appended to
    [coeffs_list]. *)
Definition full_coeffs_row (self : Processor)
    (full_tlist : option (list Q)) (pulse : Pulse) : result (list Q) :=
  match tlist pulse, coeff pulse with
  | None, CNone => n ← len_opt full_tlist; Ok (np_zeros n)
  | _, _ =>
    match coeff pulse with
    | CBool b =>
      n ← len_opt full_tlist;
      Ok (if b then np_ones n else np_zeros n)
    | CArray a =>
      if decide (proc_spline_kind self = "step_func") then
        _fill_coeff a (tlist pulse) full_tlist true
      else if decide (proc_spline_kind self = "cubic") then
        _fill_coeff a (tlist pulse) full_tlist false
      else
        Raise (ValueError "Unknown spline kind.")
    | _ => Raise (ValueError msg_unsupported_coeff)
    end
  end.

Definition get_full_coeffs (self : Processor)
    (full_tlist : option (list Q)) : result NdArray :=
  _is_pulses_valid self;;
  match pulses self with
  | [] => Ok (Arr1 [0%Q; 0%Q])
  | _ =>
    let full_tlist :=
      match full_tlist with
      | None => get_full_tlist self default_tol
      | Some t => Some t
      end in
    coeffs_list ← mapM (full_coeffs_row self full_tlist) (pulses self);
    Ok (Arr2 coeffs_list)
  end.

(** ** [run_analytically] *)

(** The property [ctrls] *)
Definition ctrls (self : Processor) : list Qobj :=
  map (fun pulse => get_ideal_qobj pulse (dims self)) (pulses self).

(** [a + b] where either side may be the integer [0] *)
Definition ham_add (a b : Ham) : Ham :=
  match a, b with
  | HZero, _ => b
  | _, HZero => a
  | HQobj p, HQobj q => HQobj (qadd p q)
  end.

(** [sum(l)] *)
Definition py_sum (l : list Ham) : Ham := foldl ham_add HZero l.

(** [(-1j * H * dt).expm()]; the integer [0] has no method [expm]. *)
Definition step_propagator (H : Ham) (dt : Q) : result Qobj :=
  match H with
  | HZero => Raise (AttributeError "object has no attribute 'expm'")
  | HQobj h => Ok (expm (qscale dt (q_minus_i h)))
  end.

(** The drift loop: [H_drift = 0], then
    [H_drift += drift_ham.get_qobj(self.dims)]. *)
Definition compute_H_drift (self : Processor) : Ham :=
  foldl (fun H_drift drift_ham =>
           ham_add H_drift (HQobj (drift_get_qobj drift_ham (dims self))))
        HZero (drift_hamiltonians (drift self)).

(** The body of the loop [for n in range(len(tlist)-1)]: the propagator
    [U] appended to [U_list]. *)
Definition analytic_step `{SC : !Subclass} (self : Processor)
    (tlist : list Q) (coeffs : NdArray) (H_drift : Ham) (n : nat)
  : result Qobj :=
  terms ← mapM (fun m =>
                  c ← getitem2 coeffs m n;
                  ctrl ← getitem (ctrls self) m;
                  Ok (HQobj (qscale c ctrl)))
               (seq 0 (length (ctrls self)));
  let H := ham_add H_drift (py_sum terms) in
  t_next ← getitem tlist (n + 1);
  t_n ← getitem tlist n;
  let dt := (t_next - t_n)%Q in
  U ← step_propagator H dt;
  Ok (eliminate_auxillary_modes U).

(** The [try] block that closes [run_analytically]: an attribute that does
    not exist raises [AttributeError], which is passed over. *)
Definition phase_entry `{SC : !Subclass} (self : Processor) : list Qobj :=
  match correct_global_phase with
  | Some true =>
    match global_phase with
    | Some g =>
      if negb (Qeq_bool g 0) then [globalphase g (num_qubits self)] else []
    | None => []
    end
  | _ => []
  end.

(** The parameter [qc] is not read by the method and is left out. *)
Definition run_analytically `{SC : !Subclass} (self : Processor)
    (init_state : option Qobj) : result (list Qobj) :=
  let U_list :=
    match init_state with
    | Some s => [s]
    | None => []
    end in
  let tlist := get_full_tlist self default_tol in
  coeffs ← get_full_coeffs self None;
  let H_drift := compute_H_drift self in
  len_tlist ← len_opt tlist;
  steps ← mapM (analytic_step self (default [] tlist) coeffs H_drift)
               (seq 0 (len_tlist - 1));
  Ok (U_list ++ steps ++ phase_entry self).

(** ** [run_state] *)

Inductive Warning : Type :=
| DeprecationWarning (msg : string)
| UserWarning (msg : string).

(** What [run_state] returns: the list of [run_analytically] or the
    [Result] of a solver. *)
Inductive RunOutput : Type :=
| RunList (U_list : list Qobj)
| RunResult (r : SolverResult).

(** The part of [run_state] after the test on ["H"] and ["tlist"]:
    [get_qobjevo], the merge of the collapse operators and the call of
    [mesolve] or [mcsolve]. *)
Class SolverBackend : Type := {
  dispatch_solver :
    Processor → Qobj → bool → string → list (string * KwVal) →
    result SolverResult
}.

Definition has_key (k : string) (kwargs : list (string * KwVal)) : bool :=
  existsb (fun kv => bool_decide (kv.1 = k)) kwargs.

Definition is_empty {A} (l : list A) : bool :=
  match l with [] => true | _ => false end.

Definition msg_analytical : string :=
  "Analytical matrices exponentiation" +:+
  "does not process noise or" +:+
  "any keyword arguments.".

(** The warnings emitted come first, then the value returned or the
    exception raised. [warnings.warn] returns [None] under the default
    filter, and [raise None] is a [TypeError]. *)
Definition run_state `{SC : !Subclass} `{SB : !SolverBackend}
    (self : Processor) (init_state : option Qobj) (analytical : bool)
    (states : option Qobj) (noisy : bool) (solver : string)
    (kwargs : list (string * KwVal))
  : list Warning * result RunOutput :=
  let w :=
    match states with
    | Some _ =>
      [DeprecationWarning
         "states will be deprecated and replaced by init_state"]
    | None => []
    end in
  let body (init_state : Qobj) :=
    if analytical then
      if negb (is_empty kwargs) || negb (is_empty (noise self)) then
        (w ++ [UserWarning msg_analytical],
         Raise (TypeError "exceptions must derive from BaseException"))
      else
        (w, U_list ← run_analytically self (Some init_state);
            Ok (RunList U_list))
    else
      (* kwargs can not contain H or tlist *)
      if has_key "H" kwargs || has_key "tlist" kwargs then
        (w, Raise (ValueError
              ("`H` and `tlist` are already specified by the processor " +:+
               "and can not be given as a keyword argument")))
      else
        (w, r ← dispatch_solver self init_state noisy solver kwargs;
            Ok (RunResult r)) in
  match init_state, states with
  | None, None => (w, Raise (ValueError "Qubit state not defined."))
  | None, Some s =>
    (* just to keep the old parameters `states`,
       it is replaced by init_state *)
    body s
  | Some s, _ => body s
  end.

(** ** [save_coeff], [read_coeff] *)

(** The text written by [np.savetxt(..., delimiter='\t', fmt='%1.16f')]:
    its lines, each the list of its numbers; a number printed with 16
    digits after the point is an integer count of 1e-16. *)
Definition FileText : Type := list (list Z).

(** Rounding to the nearest integer, ties to even, as [printf] rounds. *)
Definition round_half_even (x : Q) : Z :=
  let f := Qfloor x in
  match (x - inject_Z f ?= 1 # 2)%Q with
  | Lt => f
  | Gt => (f + 1)%Z
  | Eq => if Z.even f then f else (f + 1)%Z
  end.

(** ['%1.16f' % x] *)
Definition fmt_1_16f (x : Q) : Z :=
  round_half_even (x * inject_Z (10 ^ 16))%Q.

(** The value of a binary float; an infinity or a NaN, which no quotient
    below the overflow threshold gives, has none and stands as [0]. *)
Definition SF2Q (f : spec_float) : Q :=
  match f with
  | S754_finite s m e =>
    let z := if s then Z.neg m else Z.pos m in
    match e with
    | Z.neg k => z # (2 ^ k)
    | _ => inject_Z (z * 2 ^ e)
    end
  | _ => 0%Q
  end.

(** The double nearest to [num / den], ties to even: the division of
    binary64 ([prec = 53], [emax = 1024]), rounded once. *)
Definition nearest_double (num : Z) (den : positive) : Q :=
  match num with
  | Z0 => 0%Q
  | Z.pos p =>
    SF2Q (SFdiv 53 1024 (S754_finite false p 0) (S754_finite false den 0))
  | Z.neg p =>
    SF2Q (SFdiv 53 1024 (S754_finite true p 0) (S754_finite false den 0))
  end.

(** The float read from a printed number: [float(text)], the double
    nearest to the decimal [z * 1e-16] *)
Definition parse_float (z : Z) : Q := nearest_double z (10 ^ 16).

Definition np_savetxt (data : NdArray) : result FileText :=
  match data with
  | Arr0 _ => Raise (ValueError "Expected 1D or 2D array, got 0D array")
  | Arr1 a => Ok (map (fun x => [fmt_1_16f x]) a)
  | Arr2 rows => Ok (map (map fmt_1_16f) rows)
  end.

(** [np.loadtxt(file_name, delimiter='\t')]: empty lines are skipped, the
    lines must have the same number of columns, and axes of length one
    are squeezed. *)
Definition np_loadtxt (fs : gmap string FileText) (file_name : string)
  : result NdArray :=
  match fs !! file_name with
  | None => Raise (OSError "file not found")
  | Some text =>
    let lines := filter (fun l => l ≠ []) text in
    match lines with
    | [] => Ok (Arr1 [])
    | l0 :: _ =>
      if forallb (fun l => Nat.eqb (length l) (length l0)) lines then
        let data := map (map parse_float) lines in
        match data with
        | [[x]] => Ok (Arr0 x)
        | [row] => Ok (Arr1 row)
        | _ =>
          if Nat.eqb (length l0) 1 then Ok (Arr1 (map (fun r => nth 0 r 0%Q) data))
          else Ok (Arr2 data)
        end
      else Raise (ValueError "Wrong number of columns")
    end
  end.

(** [data[:, 0] = self.get_full_tlist()]: the value assigned to a column
    of [n] entries *)
Definition broadcast_column (t : option (list Q)) (n : nat)
  : result (list Q) :=
  match t with
  | None => Raise (TypeError "float() argument must be a real number")
  | Some t =>
    if Nat.eqb (length t) n then Ok t
    else
      match t with
      | [x] => Ok (replicate n x)
      | _ => Raise (ValueError "could not broadcast input array")
      end
  end.

Definition save_coeff (self : Processor) (file_name : string)
    (inctime : bool) (fs : gmap string FileText)
  : result (gmap string FileText) :=
  _is_pulses_valid self;;
  coeffs ← get_full_coeffs self None;
  data ← (if inctime then
            match coeffs with
            | Arr2 rows =>
              let coeffs_T := transpose rows in
              column0 ← broadcast_column (get_full_tlist self default_tol)
                                         (length coeffs_T);
              Ok (Arr2 (zip_with cons column0 coeffs_T))
            | _ => Raise (IndexError "tuple index out of range")
            end
          else Ok (ndarray_T coeffs));
  text ← np_savetxt data;
  Ok (<[file_name := text]> fs).

(** The first component of what [read_coeff] returns with [inctime]: an
    array, or a method bound to the processor and not called. *)
Inductive TlistReturned : Type :=
| TlistValue (t : option (list Q))
| BoundMethod (name : string).

Inductive ReadOutput : Type :=
| ReadCoeffs (c : option (list Coeff))
| ReadPair (t : TlistReturned) (c : option (list Coeff)).

Definition read_coeff (self : Processor) (file_name : string)
    (inctime : bool) (fs : gmap string FileText)
  : result (Processor * ReadOutput) :=
  data ← np_loadtxt fs file_name;
  if negb inctime then
    self ← set_coeffs self (ndarray_T data);
    Ok (self, ReadCoeffs (coeffs self))
  else
    match data with
    | Arr2 rows =>
      let tlist := map (fun r => nth 0 r 0%Q) rows in
      let self := set_all_tlist self (Some tlist) in
      self ← set_coeffs self (Arr2 (transpose (map (drop 1) rows)));
      Ok (self, ReadPair (BoundMethod "get_full_tlist") (coeffs self))
    | _ => Raise (IndexError "too many indices for array")
    end.

End Device.

(** ** [get_noisy_pulses]: the pulse list by reference *)

Section Store.
Context `{QS : QobjSig}.

(** The address (Python's [id]) of an object *)
Definition loc : Type := positive.

(** The objects [get_noisy_pulses] handles: pulses, the drift, and lists
    of references. *)
Inductive Obj : Type :=
| OPulse (p : Pulse)
| ODrift (d : Drift)
| OList (items : list loc).

(** A new object gets an address no live object has. *)
Definition alloc (o : Obj) (h : gmap loc Obj) : gmap loc Obj * loc :=
  let l := fresh (dom h) in (<[l := o]> h, l).

(** [copy.deepcopy] of the entries of a list, with its memo of the
    objects already copied. An entry is copied as a value: the entries of
    a pulse list are pulses, not lists. *)
Fixpoint deepcopy_items (memo : gmap loc loc) (items : list loc)
    (h : gmap loc Obj) : gmap loc Obj * list loc :=
  match items with
  | [] => (h, [])
  | l :: rest =>
    match memo !! l with
    | Some l' =>
      let '(h, out) := deepcopy_items memo rest h in (h, l' :: out)
    | None =>
      match h !! l with
      | Some o =>
        let '(h, l') := alloc o h in
        let '(h, out) := deepcopy_items (<[l := l']> memo) rest h in
        (h, l' :: out)
      | None =>
        let '(h, out) := deepcopy_items memo rest h in (h, l :: out)
      end
    end
  end.

Definition deepcopy (l : loc) (h : gmap loc Obj) : gmap loc Obj * loc :=
  match h !! l with
  | Some (OList items) =>
    let '(h, items') := deepcopy_items ∅ items h in
    alloc (OList items') h
  | Some o => alloc o h
  | None => (h, l)
  end.

(** [lst += items] on the list object at [lst] *)
Definition list_iadd (lst : loc) (items : list loc) (h : gmap loc Obj)
  : gmap loc Obj :=
  match h !! lst with
  | Some (OList xs) => <[lst := OList (xs ++ items)]> h
  | _ => h
  end.

(** [qutip.qip.noise.process_noise], called with the list of pulses, the
    noise objects, [dims], [t1], [t2] and [device_noise]; it returns a
    list. *)
Class NoiseLib : Type := {
  process_noise :
    loc → list Noise → list nat → Relax → Relax → bool →
    gmap loc Obj → gmap loc Obj * loc
}.

Definition get_noisy_pulses `{NL : !NoiseLib} (self : Processor_ loc loc)
    (device_noise drift_ : bool) (h : gmap loc Obj)
  : gmap loc Obj * loc :=
  let '(h, pulses_) := deepcopy (pulses self) h in
  let '(h, noisy_pulses) :=
    process_noise pulses_ (noise self) (dims self) (t1 self) (t2 self)
                  device_noise h in
  let h := if drift_ then list_iadd noisy_pulses [drift self] h else h in
  (h, noisy_pulses).

(** What a call can reach from the list it is given: the list and its
    entries. *)
Definition reach (h : gmap loc Obj) (l : loc) : list loc :=
  match h !! l with
  | Some (OList items) => l :: items
  | _ => [l]
  end.

(** The footprint of [process_noise]: called on a list, it changes no
    object but those it can reach from the list or creates, and it
    returns a list whose entries are among those. *)
Definition frame_respecting (NL : NoiseLib) : Prop :=
  ∀ arg items ns d r1 r2 dn h h' out,
    h !! arg = Some (OList items) →
    process_noise arg ns d r1 r2 dn h = (h', out) →
    (∀ l o, h !! l = Some o → l ∉ reach h arg → h' !! l = Some o) ∧
    (∃ xs, h' !! out = Some (OList xs) ∧
           ∀ x, x ∈ xs → x ∈ reach h arg ∨ h !! x = None) ∧
    (out ∈ reach h arg ∨ h !! out = None).

End Store.

(** ** [pulse_mode], [find_pulse], [add_noise] *)

Section Modes.
Context `{QS : QobjSig}.

(** The getter of the property [pulse_mode] *)
Definition pulse_mode (self : Processor) : result string :=
  if decide (proc_spline_kind self = "step_func") then Ok "discrete"
  else if decide (proc_spline_kind self = "cubic") then Ok "continuous"
  else Raise (ValueError "Saved spline_kind not understood.").

(** The setter of [pulse_mode]: [self.spline_kind = spline_kind], then
    [pulse.spline_kind = spline_kind] for every pulse. *)
Definition set_pulse_mode (self : Processor) (mode : string)
  : result Processor :=
  spline_kind_ ←
    (if decide (mode = "discrete") then Ok "step_func"
     else if decide (mode = "continuous") then Ok "cubic"
     else Raise (ValueError
                   "Pulse mode must be either discrete or continuous."));
  Ok (mkProcessor (num_qubits self)
        (map (fun pulse => set_spline_kind pulse (Some spline_kind_))
             (pulses self))
        (t1 self) (t2 self) (noise self) (drift self) (dims self)
        spline_kind_).

(** The parameter [pulse_name] of [find_pulse]: a string, an integer, or
    anything else, given by what [type(pulse_name)] prints *)
Inductive PulseName : Type :=
| NameStr (s : string)
| NameInt (i : Z)
| NameOther (type_ : string).

(** What [find_pulse] does: it returns a pulse, raises the [KeyError] it
    builds itself, or lets another exception pass. *)
Inductive FindOutcome : Type :=
| Found (pulse : Pulse)
| RaisedKeyError (msg : string)
| Raised (e : exn).

(** [l[i]] for an integer index, negative indices counting from the end *)
Definition py_getitem {A} (l : list A) (i : Z) : result A :=
  let n := Z.of_nat (length l) in
  if ((0 <=? i) && (i <? n))%Z then getitem l (Z.to_nat i)
  else if ((- n <=? i) && (i <? 0))%Z then getitem l (Z.to_nat (i + n))
       else Raise (IndexError "list index out of range").

Definition msg_undefined (pulse_name : string) : string :=
  "Pulse name " +:+ pulse_name +:+ " undefined. " +:+
  "Please define it in the attribute " +:+
  "`pulse_dict`.".

(** [find_pulse]. The attribute [pulse_dict] is not set by [Processor]:
    [None] stands for a processor without it, where reading it raises
    [AttributeError]. *)
Definition find_pulse (self : Processor) (pulse_dict : option (gmap string Z))
    (pulse_name : PulseName) : FindOutcome :=
  match pulse_name with
  | NameStr s =>
    match pulse_dict with
    | None => Raised (AttributeError "object has no attribute 'pulse_dict'")
    | Some d =>
      match d !! s with
      | None => RaisedKeyError (msg_undefined s)
      | Some i =>
        match py_getitem (pulses self) i with
        | Ok pulse => Found pulse
        | Raise e => Raised e
        end
      end
    end
  | NameInt i =>
    match py_getitem (pulses self) i with
    | Ok pulse => Found pulse
    | Raise e => Raised e
    end
  | NameOther type_ =>
    Raised (TypeError ("pulse_name is either a string or an integer, not " +:+
                       type_))
  end.

(** The argument of [isinstance(noise, Noise)] *)
Inductive NoiseArg : Type :=
| IsNoise (n : Noise)
| NotNoise.

Definition add_noise (self : Processor) (noise_ : NoiseArg)
  : result Processor :=
  match noise_ with
  | IsNoise n =>
    Ok (mkProcessor (num_qubits self) (pulses self) (t1 self) (t2 self)
                    (noise self ++ [n]) (drift self) (dims self)
                    (proc_spline_kind self))
  | NotNoise => Raise (TypeError "Input is not a Noise object.")
  end.

(** [get_operators_labels] *)
Definition get_operators_labels (self : Processor)
  : list (list (option string)) :=
  [map label (pulses self)].

End Modes.

(** ** The terms of the statements *)

Section Terms.
Context `{QS : QobjSig}.

(** The grid merge in words: after the first point, a point is dropped
    when its gap to the previous retained point is at most [tol]. *)
Fixpoint collapse_from_retained (tol last : Q) (a : list Q) : list Q :=
  match a with
  | [] => []
  | x :: a' =>
    if Qgtb (x - last) tol then x :: collapse_from_retained tol x a'
    else collapse_from_retained tol last a'
  end.

Definition full_tlist_by_retained (self : Processor) (tol : Q)
  : option (list Q) :=
  match omap tlist (pulses self) with
  | [] => None
  | grids =>
    match np_unique (np_sort (np_hstack grids)) with
    | [] => Some []
    | x :: a => Some (x :: collapse_from_retained tol x a)
    end
  end.

(** The pulse the [i]-th turn of the cyclic loop of [add_control] is to
    create *)
Definition cyclic_pulse (self : Processor) (q : Qobj) (T : list Z)
    (lbl : option string) (i : nat) : Pulse :=
  mkPulse q
    (map (fun t => ((t + Z.of_nat i) `mod` Z.of_nat (num_qubits self))%Z) T)
    None CNone (Some (proc_spline_kind self)) lbl.

(** A pulse the validator passes over: its coefficient is absent or a
    boolean. *)
Definition constant_pulse (pulse : Pulse) : Prop :=
  coeff pulse = CNone ∨ ∃ b, coeff pulse = CBool b.

(** The relation between [len(coeff)] and [len(tlist)] a kind asks for *)
Definition length_rule (pulse : Pulse) (coeff_len tlist_len : Z) : Prop :=
  if decide (spline_kind pulse = Some "step_func")
  then coeff_len = (tlist_len - 1)%Z ∨ coeff_len = tlist_len
  else coeff_len = tlist_len.

(** A pulse the validator accepts *)
Definition well_formed_pulse (pulse : Pulse) : Prop :=
  constant_pulse pulse ∨
  ∃ tl n, tlist pulse = Some tl ∧ len_coeff (coeff pulse) = Ok n ∧
          length_rule pulse n (Z.of_nat (length tl)).


(** The points kept after the first one: those of [a] whose gap to the
    point before them in [y :: a] exceeds [tol]. *)
Definition kept_after (tol y : Q) (a : list Q) : list Q :=
  mask_select a (map (fun d => Qgtb d tol) (np_diff (y :: a))).

(** The sorted union of the grids of the pulses that have one *)
Definition sorted_union (self : Processor) : list Q :=
  np_unique (np_sort (np_hstack (omap tlist (pulses self)))).

Context `{PL : !PulseLib}.

(** The grid [get_full_coeffs] resamples onto: its argument, or the
    merged grid when the argument is [None]. *)
Definition effective_tlist (self : Processor) (full_tlist : option (list Q))
  : option (list Q) :=
  match full_tlist with
  | None => get_full_tlist self default_tol
  | Some t => Some t
  end.

(** A pulse that is off (no grid and no coefficient) or has a boolean
    coefficient *)
Definition off_or_bool (pulse : Pulse) : Prop :=
  (tlist pulse = None ∧ coeff pulse = CNone) ∨ ∃ b, coeff pulse = CBool b.

(** The row of a pulse that is off or boolean, on a grid of [n] points *)
Definition constant_row (n : nat) (pulse : Pulse) : list Q :=
  match coeff pulse with
  | CBool true => replicate n 1%Q
  | _ => replicate n 0%Q
  end.

(** The sum of the operators of a list, added from the left; the empty
    list has none. *)
Definition sum_of (l : list Qobj) : option Qobj :=
  match l with
  | [] => None
  | x :: l' => Some (foldl qadd x l')
  end.

(** The drift terms, each expanded to the dimensions of the processor *)
Definition drift_terms (self : Processor) : list Qobj :=
  map (fun d => drift_get_qobj d (dims self))
      (drift_hamiltonians (drift self)).

(** The control terms of step [n]: for each pulse the entry [n] of its
    resampled row times its expanded operator *)
Definition control_terms (self : Processor) (rows : list (list Q))
    (n : nat) : list Qobj :=
  zip_with (fun row pulse =>
              qscale (nth n row 0%Q) (get_ideal_qobj pulse (dims self)))
           rows (pulses self).

(** The generator of step [n] in the words of the specification: the
    drift, the sum of the drift terms, plus the sum over the pulses of
    the control terms; a side without terms adds nothing. *)
Definition generator (self : Processor) (rows : list (list Q)) (n : nat)
  : option Qobj :=
  match sum_of (drift_terms self), sum_of (control_terms self rows n) with
  | Some d, Some c => Some (qadd d c)
  | Some d, None => Some d
  | None, c => c
  end.

(** An error about the type of the coefficient: Python's [TypeError], or
    the error [get_full_coeffs] raises for a coefficient that is neither a
    [bool] nor an array. *)
Definition is_type_error (e : exn) : Prop :=
  (∃ msg, e = TypeError msg) ∨ e = ValueError msg_unsupported_coeff.

End Terms.

Section MoreTerms.
Context `{QS : QobjSig}.

(** The list without its entries at the positions in [ks]; [i] is the
    position of the head. *)
Fixpoint without_positions {A} (ks : list nat) (i : nat) (l : list A)
  : list A :=
  match l with
  | [] => []
  | x :: l' =>
    if decide (i ∈ ks) then without_positions ks (S i) l'
    else x :: without_positions ks (S i) l'
  end.

(** Every gap between neighbours exceeds [tol]. *)
Fixpoint gaps_exceed (tol : Q) (a : list Q) : Prop :=
  match a with
  | x :: a' =>
    match a' with
    | y :: _ => (tol < y - x)%Q ∧ gaps_exceed tol a'
    | [] => True
    end
  | [] => True
  end.

(** No two neighbours both carry the label. *)
Fixpoint no_adjacent_label (L : option string) (ps : list Pulse) : Prop :=
  match ps with
  | p :: ps' =>
    match ps' with
    | q :: _ => ¬ (label p = L ∧ label q = L) ∧ no_adjacent_label L ps'
    | [] => True
    end
  | [] => True
  end.

(** A float written with ['%1.16f'] and read back *)
Definition reread (x : Q) : Q := parse_float (fmt_1_16f x).

(** A pulse that is off, as [add_control] creates it *)
Definition off_pulse (pulse : Pulse) : Prop :=
  tlist pulse = None ∧ coeff pulse = CNone.

(** Entry by entry, [a] is [b] written and read: the double nearest to
    a decimal of 16 places that is within half of 1e-16 of the entry of
    [b]. *)
Definition read_back (a b : list Q) : Prop :=
  Forall2 (fun y x =>
             ∃ z : Z, (Qabs ((z # 10 ^ 16) - x) <= 1e-16 / 2)%Q ∧
                      y = nearest_double z (10 ^ 16)) a b.

End MoreTerms.

(** ** An instance for the examples: symbolic operators *)

(** Operators as terms: a named operator with its Hermiticity and the
    number of subsystems it acts on, and the operations applied to it. *)
Inductive SymOp : Type :=
| SOp (name : string) (herm : bool) (arity : nat)
| SAdd (a b : SymOp)
| SScale (c : Q) (a : SymOp)
| SMinusI (a : SymOp)
| SExpm (a : SymOp)
| SExpand (a : SymOp) (targets : list Z) (dims : list nat)
| SPhase (g : Q) (n : nat).

#[export] Instance sym_qobj : QobjSig := {|
  Qobj := SymOp;
  Noise := unit;
  KwVal := unit;
  SolverResult := unit;
  isherm := fun a => match a with SOp _ h _ => h | _ => false end;
  dims0_len := fun a => match a with SOp _ _ n => n | _ => 1 end;
  qadd := SAdd;
  qscale := SScale;
  q_minus_i := SMinusI;
  expm := SExpm;
  globalphase := SPhase
|}.

(** The coefficient held at time [t]: that of the last grid point not
    after [t]; [cur] is the value before the first grid point. *)
Fixpoint hold_previous (old_tlist coeffs : list Q) (cur t : Q) : Q :=
  match old_tlist, coeffs with
  | ti :: ts, c :: cs =>
    if Qle_bool ti t then hold_previous ts cs c t else cur
  | _, _ => cur
  end.

(** Modelled from the spec: [_fill_coeff] of [qutip.qip.pulse] is not
    among the sources. Section 4.2: for [step_func] a sequence one shorter
    than the local grid is extended by 0, and is resampled by holding the
    previous value inside the local span, 0 outside; [cubic] is not
    computed here. *)
Definition fill_coeff_step (old_coeffs : list Q)
    (old_tlist full_tlist : option (list Q)) (step_func : bool)
  : result (list Q) :=
  match old_tlist, full_tlist with
  | Some ot, Some ft =>
    if step_func then
      let cs :=
        if Nat.eqb (length old_coeffs + 1) (length ot)
        then old_coeffs ++ [0%Q] else old_coeffs in
      Ok (map (fun t =>
                 if Qle_bool (hd 0%Q ot) t && Qle_bool t (List.last ot 0%Q)
                 then hold_previous ot cs 0%Q t else 0%Q) ft)
    else Raise (ValueError "cubic interpolation is not computed")
  | _, _ => Raise (TypeError "object of type 'NoneType' has no len()")
  end.

#[export] Instance sym_pulse_lib : PulseLib := {|
  get_ideal_qobj := fun pulse dims => SExpand (qobj pulse) (targets pulse) dims;
  drift_get_qobj := fun d dims => SExpand d.1 d.2 dims;
  _fill_coeff := fill_coeff_step
|}.

#[export] Instance sym_solver : SolverBackend := {|
  dispatch_solver := fun _ _ _ _ _ => Ok tt
|}.

(** A [process_noise] that adds one pulse to the list it is given when
    [device_noise] is set, and returns that list. *)
#[export] Instance sym_noise : NoiseLib := {|
  process_noise := fun pulses_ _ _ _ _ device_noise h =>
    if device_noise then
      let '(h, l) :=
        alloc (OPulse (mkPulse (SOp "systematic_noise" true 0) [] None CNone
                               None (Some "systematic_noise"))) h in
      (list_iadd pulses_ [l] h, pulses_)
    else (h, pulses_)
|}.

Definition sigmax : SymOp := SOp "sigmax" true 1.
Definition sigmaz : SymOp := SOp "sigmaz" true 1.

(** [Processor(N)] with the defaults *)
Definition new_processor (N : nat) : Processor :=
  init N RelaxNone RelaxNone None "step_func".

Definition pulse_of (q : SymOp) (tl : option (list Q)) (c : Coeff)
    (lbl : option string) : Pulse :=
  mkPulse q [0%Z] tl c (Some "step_func") lbl.

(** One pulse on the grid [0, 6e-11, 1.2e-10]: a chain of near-duplicates *)
Definition chain_processor : Processor :=
  set_pulses (new_processor 1)
    [pulse_of sigmax (Some [0; 6e-11; 1.2e-10]%Q) (CArray [1; 1]%Q) None].

(** The grids [0, 1, 2] and [0, 1 + 1e-11, 2] *)
Definition two_grid_processor : Processor :=
  set_pulses (new_processor 2)
    [pulse_of sigmax (Some [0; 1; 2]%Q) (CArray [1; 1]%Q) None;
     pulse_of sigmaz (Some [0; 1 + 1e-11; 2]%Q) (CArray [1; 1]%Q) None].

(** A callable coefficient on a pulse without grid *)
Definition callable_processor : Processor :=
  set_pulses (new_processor 1) [pulse_of sigmax None (COther None) None].

(** Two pulses with the same label *)
Definition twin_processor : Processor :=
  set_pulses (new_processor 2)
    [pulse_of sigmax None CNone (Some "sx");
     pulse_of sigmaz None CNone (Some "sx")].

(** Two pulses on the grid [0, 1/2, 1] *)
Definition saved_processor : Processor :=
  set_pulses (new_processor 2)
    [pulse_of sigmax (Some [0; 0.5; 1]%Q) (CArray [1; 2]%Q) None;
     pulse_of sigmaz (Some [0; 0.5; 1]%Q) (CArray [3; 4]%Q) None].

(** A callable coefficient on a pulse with the grid [0, 1] *)
Definition lenless_processor : Processor :=
  set_pulses (new_processor 1)
    [pulse_of sigmax (Some [0; 1]%Q) (COther None) None].

(** The two pulses of [saved_processor] with the drift term [sigmaz] on
    subsystem 1 *)
Definition driven_processor : Processor :=
  set_drift saved_processor (mkDrift [(sigmaz, [1%Z])]).

(** A constant pulse, then a [step_func] pulse with three grid points and
    one coefficient *)
Definition short_coeff_pulse : Pulse :=
  pulse_of sigmaz (Some [0; 1; 2]%Q) (CArray [1%Q]) None.

Definition short_coeff_processor : Processor :=
  set_pulses (new_processor 2)
    [pulse_of sigmax None (CBool true) None; short_coeff_pulse].

(** A boolean pulse, then a symbolic coefficient of length 3 on a grid of
    three points *)
Definition symbolic_pulse : Pulse :=
  pulse_of sigmaz (Some [0; 1; 2]%Q) (COther (Some 3)) None.

Definition symbolic_processor : Processor :=
  set_pulses (new_processor 2)
    [pulse_of sigmax None (CBool true) None; symbolic_pulse].

(** A store with the pulse list at address 1, its two pulses at 2 and 3,
    and the drift at 4 *)
Definition stored_pulses : gmap loc Obj :=
  <[1%positive := OList [2%positive; 3%positive]]>
  (<[2%positive := OPulse (pulse_of sigmax None CNone (Some "sx"))]>
  (<[3%positive := OPulse (pulse_of sigmaz None CNone (Some "sz"))]>
  (<[4%positive := ODrift (mkDrift [])]> ∅))).

Definition stored_processor : Processor_ loc loc :=
  mkProcessor 2 1%positive RelaxNone RelaxNone [] 4%positive [2; 2]
              "step_func".

(** Three pulses, the outer two labelled ["sx"] *)
Definition alternating_processor : Processor :=
  set_pulses (new_processor 2)
    [pulse_of sigmax None CNone (Some "sx");
     pulse_of sigmaz None CNone (Some "sz");
     pulse_of sigmax None CNone (Some "sx")].

(** Two pulses with boolean coefficients on the grid of the single
    point [0] *)
Definition single_point_processor : Processor :=
  set_pulses (new_processor 2)
    [pulse_of sigmax (Some [0%Q]) (CBool true) None;
     pulse_of sigmaz (Some [0%Q]) (CBool false) None].

(** One pulse on the grid [0, 1/2, 1] *)
Definition one_pulse_processor : Processor :=
  set_pulses (new_processor 1)
    [pulse_of sigmax (Some [0; 0.5; 1]%Q) (CArray [1; 2]%Q) None].

(** * Properties *)

(** ** The error monad *)

Lemma bind_Ok {A B} (m : result A) (k : A → result B) b :
  m ≫= k = Ok b ↔ ∃ a, m = Ok a ∧ k a = Ok b.
Proof.
  destruct m as [a|e]; simpl; split.
  - eauto.
  - intros (a' & [= <-] & Hk). exact Hk.
  - discriminate.
  - intros (a' & Hm & _). discriminate.
Qed.

Lemma bind_Raise {A B} (m : result A) (k : A → result B) e :
  m = Raise e → m ≫= k = Raise e.
Proof. intros ->. reflexivity. Qed.

Lemma mapM_Ok_Forall2 {A B} (f : A → result B) l k :
  mapM f l = Ok k ↔ Forall2 (fun x y => f x = Ok y) l k.
Proof.
  revert k. induction l as [|x l IH]; intros k; simpl.
  - split.
    + intros [= <-]. constructor.
    + intros Hk. inversion Hk. reflexivity.
  - split.
    + intros H. apply bind_Ok in H as (y & Hy & H).
      apply bind_Ok in H as (k' & Hk' & H). injection H as <-.
      constructor; [exact Hy | by apply IH].
    + intros H. inversion H as [|? y ? k' Hy Hk']; subst.
      rewrite Hy. simpl. apply IH in Hk'. rewrite Hk'. reflexivity.
Qed.

Lemma mapM_Ok_map {A B} (f : A → result B) (g : A → B) l :
  Forall (fun x => f x = Ok (g x)) l → mapM f l = Ok (map g l).
Proof.
  intros H. apply mapM_Ok_Forall2.
  induction H; simpl; constructor; auto.
Qed.

(** The first element on which [f] raises decides the error of [mapM]. *)
Lemma mapM_Raise_first {A B} (f : A → result B) before x after e :
  Forall (fun y => ∃ r, f y = Ok r) before →
  f x = Raise e →
  mapM f (before ++ x :: after) = Raise e.
Proof.
  intros Hb Hx. induction Hb as [|y before [r Hr] _ IH]; simpl.
  - rewrite Hx. reflexivity.
  - rewrite Hr. simpl. rewrite IH. reflexivity.
Qed.

Section Theory.
Context `{QS : QobjSig}.

(** ** [add_control] with [cyclic_permutation] *)

Lemma foldl_snoc {A B} (f : B → A) (l : list B) (acc : list A) :
  foldl (fun acc i => acc ++ [f i]) acc l = acc ++ map f l.
Proof.
  revert acc. induction l as [|x l IH]; intros acc; simpl.
  - by rewrite app_nil_r.
  - rewrite IH. by rewrite <- app_assoc.
Qed.

Lemma add_control_cyclic self q T lbl :
  isherm q = true →
  add_control self (IsQobj q) (TargetsList T) true lbl =
  Ok (set_pulses self
        (pulses self ++
         map (cyclic_pulse self q T lbl) (seq 0 (num_qubits self)))).
Proof.
  intros Hh. unfold add_control. rewrite Hh. simpl.
  do 2 f_equal. apply (foldl_snoc (cyclic_pulse self q T lbl)).
Qed.

(** C4. With [cyclic_permutation=True] and the target list [T],
    [add_control] appends exactly [N] pulses to the pulse list, the
    [i]-th with the targets [(t + i) mod N] for [t] in [T], in the order
    of [i]; for [N = 3] and [T = [0, 1]] the target lists are [0, 1],
    [1, 2], [2, 0]. *)
Theorem add_control_cyclic_targets (self : Processor) (q : Qobj)
    (T : list Z) (lbl : option string) :
  isherm q = true →
  ∃ new : list Pulse,
    add_control self (IsQobj q) (TargetsList T) true lbl =
      Ok (set_pulses self (pulses self ++ new)) ∧
    length new = num_qubits self ∧
    (∀ i, i < num_qubits self →
       targets <$> new !! i =
       Some (map (fun t => ((t + Z.of_nat i) `mod`
                              Z.of_nat (num_qubits self))%Z) T)) ∧
    (num_qubits self = 3 → T = [0; 1]%Z →
       map targets new = [[0; 1]; [1; 2]; [2; 0]]%Z).
Proof.
  intros Hh.
  exists (map (cyclic_pulse self q T lbl) (seq 0 (num_qubits self))).
  split; [by apply add_control_cyclic|].
  split; [by rewrite length_map, length_seq|].
  split.
  - intros i Hi. rewrite list_lookup_fmap.
    rewrite lookup_seq_lt by done. reflexivity.
  - intros HN ->. rewrite HN. unfold cyclic_pulse. rewrite HN.
    reflexivity.
Qed.

Lemma str_length_app (s t : string) :
  String.length (s +:+ t) = String.length s + String.length t.
Proof. induction s as [|a s IH]; simpl; [done|]. by rewrite IH. Qed.

(** A label is not its own extension by a suffix that is not empty. *)
Lemma string_app_ne (s t : string) : t ≠ "" → s ≠ s +:+ t.
Proof.
  intros Ht H. apply (f_equal String.length) in H.
  rewrite str_length_app in H.
  destruct t; [done|]. simpl in H. lia.
Qed.

(** C10. With [cyclic_permutation=True] and a label [L] that is not
    [None], each of the [N] pulses [add_control] creates has the label
    [L] itself: the label suffixed with the targets is not kept, and any
    two of the copies carry the same label. *)
Theorem add_control_cyclic_label (self : Processor) (q : Qobj)
    (T : list Z) (L : string) :
  isherm q = true →
  ∃ new : list Pulse,
    add_control self (IsQobj q) (TargetsList T) true (Some L) =
      Ok (set_pulses self (pulses self ++ new)) ∧
    length new = num_qubits self ∧
    Forall (fun pulse => label pulse = Some L) new ∧
    Forall (fun pulse =>
              label pulse ≠ Some (L +:+ "_" +:+ str_list (targets pulse)))
           new ∧
    (∀ p1 p2, p1 ∈ new → p2 ∈ new → label p1 = label p2).
Proof.
  intros Hh.
  exists (map (cyclic_pulse self q T (Some L)) (seq 0 (num_qubits self))).
  split; [by apply add_control_cyclic|].
  split; [by rewrite length_map, length_seq|].
  assert (Hall : Forall (fun pulse => label pulse = Some L)
            (map (cyclic_pulse self q T (Some L))
                 (seq 0 (num_qubits self)))).
  { apply Forall_forall. intros p Hp.
    apply list_elem_of_fmap in Hp as (i & -> & _). reflexivity. }
  split; [exact Hall|]. split.
  - eapply Forall_impl; [exact Hall|]. intros p Hp. simpl in Hp.
    rewrite Hp. intros [= H]. revert H. apply string_app_ne. discriminate.
  - intros p1 p2 H1 H2. rewrite Forall_forall in Hall.
    by rewrite (Hall p1), (Hall p2).
Qed.

(** ** [remove_pulse] by label *)

Lemma remove_label_loop_step (L : option string) ind (ps : list Pulse) :
  remove_label_loop L ind ps =
  match ps !! ind with
  | None => ps
  | Some pulse =>
    if decide (label pulse = L)
    then remove_label_loop L (S ind) (delete ind ps)
    else remove_label_loop L (S ind) ps
  end.
Proof.
  funelim (remove_label_loop L ind ps).
  - by rewrite e.
  - rewrite Hp. by rewrite decide_True.
  - rewrite Hp. by rewrite decide_False.
Qed.

(** Past position 0 the loop leaves the first pulse where it is. *)
Lemma remove_label_loop_cons (L : option string) i (x : Pulse) l :
  remove_label_loop L (S i) (x :: l) = x :: remove_label_loop L i l.
Proof.
  remember (length l - i) as n eqn:Hn. revert i l Hn.
  induction n as [n IH] using lt_wf_ind. intros i l Hn.
  rewrite (remove_label_loop_step L (S i) (x :: l)).
  rewrite (remove_label_loop_step L i l). simpl.
  destruct (l !! i) as [p|] eqn:Hp; [|done].
  apply lookup_lt_Some in Hp.
  destruct (decide (label p = L)).
  - apply (IH (length (delete i l) - S i)); [|done].
    rewrite length_delete by (apply lookup_lt_is_Some_2; lia). lia.
  - apply (IH (length l - S i)); [lia | done].
Qed.

(** The pulse that follows a deleted one is never tested: it stays,
    whatever its label. *)
Lemma remove_label_loop_skips (L : option string) (p1 p2 : Pulse) rest :
  label p1 = L →
  remove_label_loop L 0 (p1 :: p2 :: rest) =
  p2 :: remove_label_loop L 0 rest.
Proof.
  intros H1. rewrite remove_label_loop_step. simpl.
  rewrite decide_True by done. apply remove_label_loop_cons.
Qed.

(** ** [_is_pulses_valid] *)

Lemma str_app_inv_tail (s1 s2 t : string) :
  s1 +:+ t = s2 +:+ t → s1 = s2.
Proof.
  revert s2. induction s1 as [|a s1 IH]; intros [|b s2] H; simpl in *.
  - done.
  - apply (f_equal String.length) in H.
    rewrite !str_length_app in H. simpl in H. lia.
  - apply (f_equal String.length) in H.
    rewrite !str_length_app in H. simpl in H. lia.
  - injection H as -> H. f_equal. by apply IH.
Qed.

(** A message that carries the position between two fixed texts names
    one position only. *)
Lemma position_message_inj (pre post : string) (i j : nat) :
  pre +:+ pretty i +:+ post = pre +:+ pretty j +:+ post → i = j.
Proof.
  intros H. apply (inj (String.append pre)) in H.
  apply str_app_inv_tail in H. by apply (inj pretty) in H.
Qed.

Lemma msg_no_tlist_inj i j : msg_no_tlist i = msg_no_tlist j → i = j.
Proof. apply position_message_inj. Qed.

Lemma msg_len_step_inj i j : msg_len_step i = msg_len_step j → i = j.
Proof.
  unfold msg_len_step. intros H. apply (inj (String.append _)) in H.
  by apply position_message_inj in H.
Qed.

Lemma msg_len_other_inj i j : msg_len_other i = msg_len_other j → i = j.
Proof.
  unfold msg_len_other. intros H. apply (inj (String.append _)) in H.
  by apply position_message_inj in H.
Qed.

Lemma check_pulse_constant i pulse :
  constant_pulse pulse → check_pulse i pulse = Ok tt.
Proof. unfold check_pulse. by intros [->|[b ->]]. Qed.

Lemma check_pulse_Ok i pulse :
  check_pulse i pulse = Ok tt ↔ well_formed_pulse pulse.
Proof.
  split.
  - unfold check_pulse, well_formed_pulse, constant_pulse, length_rule.
    destruct (coeff pulse) as [|b|a|[n|]] eqn:Hc; simpl; eauto;
      destruct (tlist pulse) as [tl|]; simpl; try discriminate;
      intros H; right; eexists tl, _; (split; [done|]);
      (split; [done|]);
      destruct (decide (spline_kind pulse = Some "step_func"));
      repeat match type of H with
             | context [(?a =? ?b)%Z] => destruct (Z.eqb_spec a b)
             end; simpl in H; try discriminate; auto.
  - intros [Hc|(tl & n & Ht & Hn & Hr)]; [by apply check_pulse_constant|].
    unfold check_pulse, length_rule in *. rewrite Ht.
    destruct (coeff pulse) as [|b|a|[m|]]; simpl in *; try discriminate;
      injection Hn as <-;
      destruct (decide (spline_kind pulse = Some "step_func"));
      repeat match goal with
             | |- context [(?a =? ?b)%Z] => destruct (Z.eqb_spec a b)
             end; simpl; try done; lia.
Qed.

Lemma check_pulse_no_tlist i pulse :
  ¬ constant_pulse pulse → tlist pulse = None →
  check_pulse i pulse = Raise (ValueError (msg_no_tlist i)).
Proof.
  unfold check_pulse, constant_pulse. intros Hc ->.
  destruct (coeff pulse) as [|b|a|o]; simpl; try done.
  - destruct Hc. by left.
  - destruct Hc. right. by exists b.
Qed.

Lemma check_pulse_no_len i pulse tl e :
  ¬ constant_pulse pulse → tlist pulse = Some tl →
  len_coeff (coeff pulse) = Raise e →
  check_pulse i pulse = Raise e ∧ ∃ msg, e = TypeError msg.
Proof.
  unfold check_pulse, constant_pulse. intros Hc -> He.
  destruct (coeff pulse) as [|b|a|[m|]]; simpl in *; try discriminate.
  - destruct Hc. by left.
  - destruct Hc. right. by exists b.
  - injection He as <-. eauto.
Qed.

Lemma check_pulse_bad_length i pulse tl n :
  ¬ constant_pulse pulse → tlist pulse = Some tl →
  len_coeff (coeff pulse) = Ok n →
  ¬ length_rule pulse n (Z.of_nat (length tl)) →
  check_pulse i pulse =
  Raise (ValueError (if decide (spline_kind pulse = Some "step_func")
                     then msg_len_step i else msg_len_other i)).
Proof.
  unfold check_pulse, constant_pulse, length_rule. intros Hc -> Hn Hr.
  destruct (coeff pulse) as [|b|a|[m|]]; simpl in *; try discriminate;
    injection Hn as <-;
    destruct (decide (spline_kind pulse = Some "step_func"));
    repeat match goal with
           | |- context [(?a =? ?b)%Z] => destruct (Z.eqb_spec a b)
           end; simpl; try done; exfalso; apply Hr; auto.
Qed.

Lemma valid_loop_Ok k l :
  valid_loop k l = Ok true ↔ Forall well_formed_pulse l.
Proof.
  revert k. induction l as [|pulse l IH]; intros k; simpl.
  - split; [constructor | done].
  - split.
    + intros H. apply bind_Ok in H as ([] & Hc & H).
      constructor; [by apply (check_pulse_Ok k) | by apply (IH (S k))].
    + intros H. inversion H as [|? ? Hp Hl]; subst.
      apply (check_pulse_Ok k) in Hp. rewrite Hp. simpl. by apply IH.
Qed.

(** The loop raises what the body raises at the first pulse that is not
    accepted. *)
Lemma valid_loop_first_error k l i pulse e :
  l !! i = Some pulse →
  Forall well_formed_pulse (take i l) →
  check_pulse (k + i) pulse = Raise e →
  valid_loop k l = Raise e.
Proof.
  revert k i. induction l as [|p l IH]; intros k i Hi Hwf He; [done|].
  destruct i as [|i]; simpl in *.
  - injection Hi as ->. rewrite Nat.add_0_r in He. by rewrite He.
  - inversion Hwf as [|? ? Hp Hl]; subst.
    apply (check_pulse_Ok k) in Hp. rewrite Hp. simpl.
    apply (IH (S k) i); [done..|]. by rewrite Nat.add_succ_comm.
Qed.

(** C3, as amended. The validator passes a pulse list exactly when each
    pulse is constant (coefficient absent or boolean) or has a time grid
    and a coefficient length of [len(tlist) - 1] or [len(tlist)] for the
    kind [step_func], and of [len(tlist)] for any other kind, [cubic]
    among them. At the first pulse [i] that is not accepted it raises a
    [ValueError] whose message carries [i]: for a missing grid, and for a
    wrong length under [step_func] and under the other kinds; and a
    message carries one position only. The one exception is a first
    offending pulse that has a grid and a coefficient without [len()]:
    there the validator raises the [TypeError] of [len], which names no
    position. *)
Theorem is_pulses_valid_spec (self : Processor) :
  (_is_pulses_valid self = Ok true ↔
   Forall well_formed_pulse (pulses self)) ∧
  (∀ i pulse, pulses self !! i = Some pulse → constant_pulse pulse →
     check_pulse i pulse = Ok tt) ∧
  (∀ i pulse,
     pulses self !! i = Some pulse →
     Forall well_formed_pulse (take i (pulses self)) →
     ¬ constant_pulse pulse →
     (tlist pulse = None →
      _is_pulses_valid self = Raise (ValueError (msg_no_tlist i))) ∧
     (∀ tl n,
        tlist pulse = Some tl → len_coeff (coeff pulse) = Ok n →
        spline_kind pulse = Some "step_func" →
        n ≠ (Z.of_nat (length tl) - 1)%Z → n ≠ Z.of_nat (length tl) →
        _is_pulses_valid self = Raise (ValueError (msg_len_step i))) ∧
     (∀ tl n,
        tlist pulse = Some tl → len_coeff (coeff pulse) = Ok n →
        spline_kind pulse ≠ Some "step_func" →
        n ≠ Z.of_nat (length tl) →
        _is_pulses_valid self = Raise (ValueError (msg_len_other i))) ∧
     (∀ tl e,
        tlist pulse = Some tl → len_coeff (coeff pulse) = Raise e →
        _is_pulses_valid self = Raise e ∧ ∃ msg, e = TypeError msg)) ∧
  (∀ i j, msg_no_tlist i = msg_no_tlist j → i = j) ∧
  (∀ i j, msg_len_step i = msg_len_step j → i = j) ∧
  (∀ i j, msg_len_other i = msg_len_other j → i = j).
Proof.
  split; [apply valid_loop_Ok|].
  split; [intros i pulse _; apply check_pulse_constant|].
  split; [|auto using msg_no_tlist_inj, msg_len_step_inj, msg_len_other_inj].
  intros i pulse Hi Hwf Hc. unfold _is_pulses_valid.
  split; [|split; [|split]].
  - intros Ht. eapply valid_loop_first_error; [done..|].
    by apply check_pulse_no_tlist.
  - intros tl n Ht Hn Hk H1 H2.
    eapply valid_loop_first_error; [done..|]. simpl.
    rewrite (check_pulse_bad_length i pulse tl n); try done.
    + by rewrite decide_True.
    + unfold length_rule. rewrite decide_True by done. lia.
  - intros tl n Ht Hn Hk H1.
    eapply valid_loop_first_error; [done..|]. simpl.
    rewrite (check_pulse_bad_length i pulse tl n); try done.
    + by rewrite decide_False.
    + unfold length_rule. by rewrite decide_False.
  - intros tl e Ht He.
    destruct (check_pulse_no_len i pulse tl e Hc Ht He) as [Hck Hty].
    split; [|exact Hty].
    eapply valid_loop_first_error; [done..|]. exact Hck.
Qed.

(** ** [run_state] with [analytical] *)

Context `{PL : !PulseLib} `{SC : !Subclass} `{SB : !SolverBackend}.


(** ** [get_full_tlist] *)

#[local] Instance Qle_total : Total Qle.
Proof.
  intros x y. destruct (Qlt_le_dec x y) as [H|H]; [left | right]; [|done].
  by apply Qlt_le_weak.
Qed.

#[local] Instance Qle_transitive : Transitive Qle.
Proof. intros x y z. apply Qle_trans. Qed.

Lemma Qgtb_true d tol : Qgtb d tol = true ↔ (tol < d)%Q.
Proof.
  unfold Qgtb. rewrite negb_true_iff, <- not_true_iff_false, Qle_bool_iff.
  split; [apply Qnot_le_lt | apply Qlt_not_le].
Qed.

Lemma np_sort_sorted a : StronglySorted Qle (np_sort a).
Proof. apply StronglySorted_merge_sort; apply _. Qed.

Lemma np_sort_elem_of a x : x ∈ np_sort a ↔ x ∈ a.
Proof. unfold np_sort. by rewrite merge_sort_Permutation. Qed.

(** After [drop_eq] a sorted array is strictly increasing. *)
Lemma drop_eq_sorted x a :
  StronglySorted Qle (x :: a) → StronglySorted Qlt (x :: drop_eq x a).
Proof.
  revert x. induction a as [|y a IH]; intros x Hs; simpl.
  - repeat constructor.
  - apply StronglySorted_inv in Hs as [Hs Hx].
    apply Forall_cons in Hx as [Hxy Hxa].
    destruct (Qeq_bool x y) eqn:He.
    + apply IH. apply StronglySorted_inv in Hs as [Hs _].
      by apply SSorted_cons.
    + specialize (IH y Hs).
      assert (Hlt : (x < y)%Q).
      { apply Qle_lt_or_eq in Hxy as [H|H]; [done|].
        apply Qeq_bool_iff in H. congruence. }
      apply SSorted_cons; [done|].
      apply StronglySorted_inv in IH as [_ Hy].
      constructor; [done|].
      eapply Forall_impl; [exact Hy|]. intros z Hz. simpl in Hz.
      by eapply Qlt_trans.
Qed.

(** [drop_eq] keeps a representative of every element. *)
Lemma drop_eq_Exists x a z :
  Exists (Qeq z) (x :: drop_eq x a) ↔ Exists (Qeq z) (x :: a).
Proof.
  revert x. induction a as [|y a IH]; intros x; simpl; [done|].
  destruct (Qeq_bool x y) eqn:He.
  - rewrite IH. rewrite !Exists_cons. apply Qeq_bool_iff in He.
    split; [tauto|]. intros [H|[H|H]]; [tauto| |tauto].
    left. by rewrite He.
  - rewrite !Exists_cons, <- Exists_cons, IH, Exists_cons. tauto.
Qed.

Lemma np_unique_sorted a : StronglySorted Qlt (np_unique a).
Proof.
  unfold np_unique. pose proof (np_sort_sorted a) as Hs.
  destruct (np_sort a) as [|x a']; [constructor|]. by apply drop_eq_sorted.
Qed.

Lemma np_unique_Exists a z :
  Exists (Qeq z) (np_unique a) ↔ Exists (Qeq z) a.
Proof.
  unfold np_unique. rewrite (Exists_exists _ a).
  setoid_rewrite <- (np_sort_elem_of a).
  rewrite <- Exists_exists.
  destruct (np_sort a) as [|x a']; [done|]. apply drop_eq_Exists.
Qed.

Lemma mask_select_sublist {A} (a : list A) mask :
  mask_select a mask `sublist_of` a.
Proof.
  revert mask. induction a as [|x a IH]; intros [|[] mask]; simpl;
    try apply sublist_nil_l.
  - by apply sublist_skip.
  - by apply sublist_cons.
Qed.

Lemma kept_after_cons tol y z a :
  kept_after tol y (z :: a) =
  if Qgtb (z - y) tol then z :: kept_after tol z a else kept_after tol z a.
Proof. reflexivity. Qed.

Lemma kept_after_sublist tol y a : kept_after tol y a `sublist_of` a.
Proof. apply mask_select_sublist. Qed.

Lemma not_elem_of_above (z : Q) (a r : list Q) :
  Forall (Qlt z) a → r `sublist_of` a → z ∉ r.
Proof.
  intros Ha Hr Hz. eapply elem_of_sublist in Hz; [|exact Hr].
  rewrite Forall_forall in Ha. apply Ha in Hz. by apply Qlt_irrefl in Hz.
Qed.

(** A point after the first is kept exactly when its gap to the point
    before it in the sorted union exceeds the tolerance. *)
Lemma kept_after_iff tol y a i p q :
  StronglySorted Qlt (y :: a) →
  (y :: a) !! i = Some p → (y :: a) !! S i = Some q →
  q ∈ kept_after tol y a ↔ (tol < q - p)%Q.
Proof.
  revert y i. induction a as [|z a IH]; intros y i Hs Hp Hq; [done|].
  apply StronglySorted_inv in Hs as [Hs Hy].
  pose proof Hs as Hs'. apply StronglySorted_inv in Hs' as [_ Hz].
  rewrite kept_after_cons. destruct i as [|i]; simpl in Hp, Hq.
  - injection Hp as <-. injection Hq as <-.
    rewrite <- Qgtb_true. destruct (Qgtb (z - y) tol); split; try done.
    + intros _. by left.
    + intros H. exfalso. revert H.
      eapply not_elem_of_above; [exact Hz | apply kept_after_sublist].
  - rewrite <- (IH z i Hs Hp Hq).
    assert (Hne : q ≠ z).
    { intros ->. apply list_elem_of_lookup_2 in Hq.
      rewrite Forall_forall in Hz. apply Hz in Hq.
      by apply Qlt_irrefl in Hq. }
    destruct (Qgtb (z - y) tol); [|done].
    rewrite elem_of_cons. tauto.
Qed.

Lemma Exists_concat {A} (P : A → Prop) (ls : list (list A)) :
  Exists P (concat ls) ↔ Exists (Exists P) ls.
Proof.
  induction ls as [|l ls IH]; simpl.
  - by rewrite !Exists_nil.
  - by rewrite Exists_app, Exists_cons, IH.
Qed.

Lemma omap_tlist_nil (ps : list Pulse) :
  omap tlist ps = [] ↔ Forall (fun pulse => tlist pulse = None) ps.
Proof.
  induction ps as [|p ps IH]; simpl.
  - split; [constructor | done].
  - destruct (tlist p) eqn:Hp; simpl.
    + split; [done|]. intros H. inversion H. congruence.
    + rewrite IH. split; [by constructor|]. intros H. by inversion H.
Qed.

Lemma get_full_tlist_unfold self tol :
  get_full_tlist self tol =
  match omap tlist (pulses self) with
  | [] => None
  | _ =>
    Some (match sorted_union self with
          | [] => []
          | x :: a => x :: kept_after tol x a
          end)
  end.
Proof.
  unfold get_full_tlist, sorted_union.
  destruct (omap tlist (pulses self)) as [|g gs]; [done|].
  simpl. by destruct (np_unique _) as [|x a].
Qed.

Lemma sorted_union_Exists self z :
  Exists (Qeq z) (sorted_union self) ↔
  ∃ pulse g, pulse ∈ pulses self ∧ tlist pulse = Some g ∧ Exists (Qeq z) g.
Proof.
  unfold sorted_union, np_hstack. rewrite np_unique_Exists.
  rewrite Exists_exists. setoid_rewrite np_sort_elem_of.
  rewrite <- Exists_exists, Exists_concat, Exists_exists.
  setoid_rewrite list_elem_of_omap. split.
  - intros (g & (pulse & Hp & Hg) & Hz). by exists pulse, g.
  - intros (pulse & g & Hp & Hg & Hz). exists g. split; [|done].
    by exists pulse.
Qed.

(** Every point of the union belongs to a run of gaps of at most [tol]
    that starts at a kept point. *)
Lemma kept_run tol x a j p :
  StronglySorted Qlt (x :: a) →
  (x :: a) !! j = Some p →
  ∃ i p0, (i ≤ j)%nat ∧ (x :: a) !! i = Some p0 ∧
    p0 ∈ x :: kept_after tol x a ∧
    ∀ k y z, (i ≤ k < j)%nat → (x :: a) !! k = Some y →
             (x :: a) !! S k = Some z → (z - y <= tol)%Q.
Proof.
  intros Hs. revert p. induction j as [|j IH]; intros p Hp.
  - exists 0, p. simpl in Hp. injection Hp as <-.
    split; [done|]. split; [done|]. split; [by left|]. intros; lia.
  - destruct (lookup_lt_is_Some_2 (x :: a) j) as [y Hy].
    { apply lookup_lt_Some in Hp. lia. }
    destruct (Qlt_le_dec tol (p - y)) as [Hgap|Hgap].
    + exists (S j), p. split; [done|]. split; [done|]. split; [|intros; lia].
      right. by apply (kept_after_iff tol x a j y p).
    + destruct (IH y Hy) as (i & p0 & Hi & Hp0 & Hin & Hrun).
      exists i, p0. split; [lia|]. split; [done|]. split; [done|].
      intros k y' z' Hk Hy' Hz'.
      destruct (decide (k = j)) as [->|Hne].
      * rewrite Hy in Hy'. rewrite Hp in Hz'. congruence.
      * apply (Hrun k); [lia|done..].
Qed.

(** C2, as amended. [get_full_tlist] returns [None] exactly when no
    pulse has a grid. Otherwise it returns the sorted union of the grids,
    strictly increasing, from which a point after the first is dropped
    exactly when its gap to the point before it in the sorted union,
    retained or not, is at most the tolerance; the first point of the
    union is kept, and every point of the union lies in a run of such
    gaps that starts at a kept point. The grids [0, 1, 2] and
    [0, 1 + 1e-11, 2] merge to [0, 1, 2] under the default tolerance. *)
Theorem get_full_tlist_spec (self : Processor) (tol : Q) :
  (get_full_tlist self tol = None ↔
   Forall (fun pulse => tlist pulse = None) (pulses self)) ∧
  (∀ r, get_full_tlist self tol = Some r →
     StronglySorted Qlt (sorted_union self) ∧
     (∀ z, Exists (Qeq z) (sorted_union self) ↔
           ∃ pulse g, pulse ∈ pulses self ∧ tlist pulse = Some g ∧
                      Exists (Qeq z) g) ∧
     r `sublist_of` sorted_union self ∧
     head r = head (sorted_union self) ∧
     (∀ i p q, sorted_union self !! i = Some p →
               sorted_union self !! S i = Some q →
               q ∈ r ↔ (tol < q - p)%Q) ∧
     (∀ j p, sorted_union self !! j = Some p →
        ∃ i p0, (i ≤ j)%nat ∧ sorted_union self !! i = Some p0 ∧ p0 ∈ r ∧
          ∀ k y z, (i ≤ k < j)%nat → sorted_union self !! k = Some y →
                   sorted_union self !! S k = Some z →
                   (z - y <= tol)%Q)) ∧
  (omap tlist (pulses self) = [[0; 1; 2]; [0; 1 + 1e-11; 2]]%Q →
   get_full_tlist self default_tol = Some [0; 1; 2]%Q ∧
   length [0; 1; 2]%Q = 3).
Proof.
  split; [|split].
  - rewrite get_full_tlist_unfold, <- omap_tlist_nil.
    by destruct (omap tlist (pulses self)).
  - intros r Hr. rewrite get_full_tlist_unfold in Hr.
    pose proof (np_unique_sorted
                  (np_sort (np_hstack (omap tlist (pulses self))))) as Hs.
    fold (sorted_union self) in Hs.
    split; [done|]. split; [apply sorted_union_Exists|].
    destruct (omap tlist (pulses self)) as [|g gs]; [done|].
    injection Hr as <-.
    destruct (sorted_union self) as [|x a] eqn:Hu.
    + split; [done|]. split; [done|]. split; [done|]. intros j p Hp; done.
    + split; [apply sublist_skip, kept_after_sublist|].
      split; [done|]. split.
      * intros i p q Hp Hq. rewrite elem_of_cons.
        rewrite <- (kept_after_iff tol x a i p q Hs Hp Hq).
        split; [|tauto]. intros [->|H]; [|done]. exfalso.
        apply StronglySorted_inv in Hs as [_ Hx].
        simpl in Hq. apply list_elem_of_lookup_2 in Hq.
        rewrite Forall_forall in Hx. apply Hx in Hq.
        by apply Qlt_irrefl in Hq.
      * intros j p Hp. by apply (kept_run tol x a j p).
  - intros Hg. split; [|done]. unfold get_full_tlist. rewrite Hg.
    by vm_compute.
Qed.

(** ** [get_full_coeffs] *)

Lemma mapM_raises {A B} (f : A → result B) l x :
  x ∈ l → raises (f x) → raises (mapM f l).
Proof.
  intros Hx [e He]. induction l as [|y l IH]; [by inversion Hx|].
  simpl. destruct (f y) as [r|e'] eqn:Hy; [|by exists e'].
  simpl. apply elem_of_cons in Hx as [->|Hx].
  - congruence.
  - destruct (IH Hx) as [e'' ->]. by exists e''.
Qed.

Lemma valid_Ok_or_Raise (self : Processor) :
  _is_pulses_valid self = Ok true ∨ raises (_is_pulses_valid self).
Proof.
  unfold _is_pulses_valid. generalize 0.
  induction (pulses self) as [|p l IH]; intros k; simpl; [by left|].
  destruct (check_pulse k p) as [[]|e]; simpl; [apply IH|].
  right. by exists e.
Qed.

Lemma get_full_coeffs_valid self ft :
  _is_pulses_valid self = Ok true →
  pulses self ≠ [] →
  get_full_coeffs self ft =
  (coeffs_list ← mapM (full_coeffs_row self (effective_tlist self ft))
                      (pulses self);
   Ok (Arr2 coeffs_list)).
Proof.
  intros Hv Hne. unfold get_full_coeffs. rewrite Hv. simpl.
  by destruct (pulses self).
Qed.

Lemma full_coeffs_row_other self g pulse o :
  coeff pulse = COther o →
  full_coeffs_row self g pulse = Raise (ValueError msg_unsupported_coeff).
Proof.
  unfold full_coeffs_row. intros ->. by destruct (tlist pulse).
Qed.

Lemma full_coeffs_row_constant self g pulse :
  off_or_bool pulse →
  full_coeffs_row self (Some g) pulse = Ok (constant_row (length g) pulse).
Proof.
  unfold full_coeffs_row, constant_row.
  intros [[-> ->]|[b ->]]; [done|]. by destruct (tlist pulse), b.
Qed.

(** C7, as amended. Whenever a pulse has a coefficient that is neither
    absent, nor a boolean, nor an array, [get_full_coeffs] raises and
    returns no matrix. The error is the one about the coefficient type, a
    [ValueError], when the pulse list passes validation and the pulses
    before that one resample without error; a list that fails validation
    raises the validator's error instead. On a grid of [n] points a pulse
    with neither grid nor coefficient gets the row of [n] zeros, a pulse
    with a boolean coefficient the row of [n] ones or of [n] zeros; a list
    of such pulses only yields the matrix of these rows. *)
Theorem get_full_coeffs_spec (self : Processor)
    (full_tlist : option (list Q)) :
  (∀ pulse o, pulse ∈ pulses self → coeff pulse = COther o →
     raises (get_full_coeffs self full_tlist)) ∧
  (∀ before pulse after o,
     pulses self = before ++ pulse :: after →
     coeff pulse = COther o →
     _is_pulses_valid self = Ok true →
     Forall (fun p => ∃ r, full_coeffs_row self
                             (effective_tlist self full_tlist) p = Ok r)
            before →
     get_full_coeffs self full_tlist =
       Raise (ValueError msg_unsupported_coeff)) ∧
  (∀ e, _is_pulses_valid self = Raise e →
     get_full_coeffs self full_tlist = Raise e) ∧
  (∀ g rows,
     effective_tlist self full_tlist = Some g →
     get_full_coeffs self full_tlist = Ok (Arr2 rows) →
     length rows = length (pulses self) ∧
     ∀ i pulse, pulses self !! i = Some pulse →
       (tlist pulse = None → coeff pulse = CNone →
        rows !! i = Some (replicate (length g) 0%Q)) ∧
       (∀ b, coeff pulse = CBool b →
        rows !! i = Some (replicate (length g) (if b then 1%Q else 0%Q)))) ∧
  (∀ g,
     effective_tlist self full_tlist = Some g →
     pulses self ≠ [] →
     Forall off_or_bool (pulses self) →
     get_full_coeffs self full_tlist =
       Ok (Arr2 (map (constant_row (length g)) (pulses self)))).
Proof.
  split; [|split; [|split; [|split]]].
  - intros pulse o Hin Hc.
    destruct (valid_Ok_or_Raise self) as [Hv|[e He]].
    + rewrite get_full_coeffs_valid; [|done|].
      * assert (Hr : raises (mapM (full_coeffs_row self
                                (effective_tlist self full_tlist))
                             (pulses self))).
        { eapply mapM_raises; [exact Hin|].
          eexists. by eapply full_coeffs_row_other. }
        destruct Hr as [e ->]. by exists e.
      * intros Hnil. rewrite Hnil in Hin. by inversion Hin.
    + exists e. unfold get_full_coeffs. by rewrite He.
  - intros before pulse after o Hps Hc Hv Hb.
    rewrite get_full_coeffs_valid; [|done|].
    + rewrite Hps.
      rewrite (mapM_Raise_first _ before pulse after
                 (ValueError msg_unsupported_coeff)); [done|done|].
      by eapply full_coeffs_row_other.
    + rewrite Hps. by destruct before.
  - intros e He. unfold get_full_coeffs. by rewrite He.
  - intros g rows Hg Hr.
    destruct (valid_Ok_or_Raise self) as [Hv|[e He]];
      [|unfold get_full_coeffs in Hr; by rewrite He in Hr].
    assert (Hne : pulses self ≠ []).
    { intros Hnil. unfold get_full_coeffs in Hr.
      rewrite Hv, Hnil in Hr. discriminate. }
    rewrite get_full_coeffs_valid in Hr by done.
    apply bind_Ok in Hr as (rows' & Hm & [= <-]).
    apply mapM_Ok_Forall2 in Hm. rewrite Hg in Hm.
    split; [symmetry; by eapply Forall2_length|].
    intros i pulse Hi.
    destruct (Forall2_lookup_l _ _ _ _ _ Hm Hi) as (row & Hrow & Hf).
    rewrite Hrow. split.
    + intros Ht Hc.
      rewrite (full_coeffs_row_constant self g pulse) in Hf by (by left).
      unfold constant_row in Hf. rewrite Hc in Hf. congruence.
    + intros b Hc.
      rewrite (full_coeffs_row_constant self g pulse) in Hf
        by (right; by exists b).
      unfold constant_row in Hf. rewrite Hc in Hf. destruct b; congruence.
  - intros g Hg Hne Hall.
    rewrite get_full_coeffs_valid; [|apply valid_loop_Ok|done].
    + rewrite Hg.
      rewrite (mapM_Ok_map _ (constant_row (length g))); [done|].
      eapply Forall_impl; [exact Hall|]. intros p Hp.
      by apply full_coeffs_row_constant.
    + eapply Forall_impl; [exact Hall|]. intros p [[_ Hc]|[b Hc]]; left.
      * by left.
      * right. by exists b.
Qed.

(** ** [save_coeff] and [read_coeff] *)

Lemma round_half_even_close (y : Q) :
  (Qabs (inject_Z (round_half_even y) - y) <= 1 # 2)%Q.
Proof.
  unfold round_half_even.
  pose proof (Qfloor_le y) as Hlo. pose proof (Qlt_floor y) as Hhi.
  rewrite inject_Z_plus in Hhi. change (inject_Z 1) with 1%Q in Hhi.
  apply Qabs_Qle_condition.
  destruct (Qcompare_spec (y - inject_Z (Qfloor y)) (1 # 2)) as [He|Hl|Hg].
  - destruct (Z.even (Qfloor y)).
    + split; lra.
    + rewrite inject_Z_plus. change (inject_Z 1) with 1%Q. split; lra.
  - split; lra.
  - rewrite inject_Z_plus. change (inject_Z 1) with 1%Q. split; lra.
Qed.

(** The decimal written with ['%1.16f'] is within half of 1e-16 of the
    number. *)
Lemma fmt_1_16f_close (x : Q) :
  (Qabs ((fmt_1_16f x # 10 ^ 16) - x) <= 1e-16 / 2)%Q.
Proof.
  unfold fmt_1_16f.
  pose proof (round_half_even_close (x * inject_Z (10 ^ 16))) as H.
  apply Qabs_Qle_condition in H. apply Qabs_Qle_condition.
  set (z := round_half_even (x * inject_Z (10 ^ 16))) in *.
  rewrite (Qmake_Qdiv z (10 ^ 16)).
  change (inject_Z (10 ^ 16)) with 10000000000000000%Q in *.
  change (inject_Z (Z.pos (10 ^ 16))) with 10000000000000000%Q.
  assert (Hz : (inject_Z z / 10000000000000000 == inject_Z z * 1e-16)%Q).
  { unfold Qdiv. apply Qmult_comp; reflexivity. }
  rewrite Hz. change (1e-16 / 2)%Q with (1 # 20000000000000000)%Q.
  change 1e-16%Q with (1 # 10000000000000000)%Q. split; lra.
Qed.

(** What [read_coeff] returns with the time column is never a grid. *)
Lemma read_coeff_returns_method self file_name fs self' t c :
  read_coeff self file_name true fs = Ok (self', ReadPair t c) →
  t = BoundMethod "get_full_tlist".
Proof.
  unfold read_coeff. intros H.
  apply bind_Ok in H as (data & _ & H). simpl in H.
  destruct data as [x|a|rows]; try discriminate.
  apply bind_Ok in H as (self2 & _ & H). congruence.
Qed.

(** ** [run_analytically] *)

Lemma getitem_Ok {A} (l : list A) i x : l !! i = Some x → getitem l i = Ok x.
Proof. unfold getitem. by intros ->. Qed.

Lemma mapM_total {A B} (f : A → result B) l :
  (∀ x, x ∈ l → ∃ y, f x = Ok y) →
  ∃ k, mapM f l = Ok k ∧ Forall2 (fun x y => f x = Ok y) l k.
Proof.
  induction l as [|x l IH]; intros H.
  - exists []. split; [done | constructor].
  - destruct (H x) as [y Hy]; [by left|].
    destruct IH as (k & Hk & Hf); [intros z Hz; apply H; by right|].
    exists (y :: k). split; [|by constructor].
    simpl. rewrite Hy. simpl. rewrite Hk. done.
Qed.

(** Python's sums of operators, [0 + A + B + ...], are the sum from the
    left. *)
Lemma foldl_ham_add_HQobj (acc : Qobj) (l : list Qobj) :
  foldl ham_add (HQobj acc) (map HQobj l) = HQobj (foldl qadd acc l).
Proof.
  revert acc. induction l as [|x l IH]; intros acc; simpl; [done|].
  apply IH.
Qed.

Lemma py_sum_HQobj (l : list Qobj) :
  py_sum (map HQobj l) =
  match sum_of l with Some x => HQobj x | None => HZero end.
Proof.
  unfold py_sum. destruct l as [|x l]; simpl; [done|].
  apply foldl_ham_add_HQobj.
Qed.

Lemma compute_H_drift_terms (self : Processor) :
  compute_H_drift self =
  match sum_of (drift_terms self) with Some x => HQobj x | None => HZero end.
Proof.
  rewrite <- py_sum_HQobj. unfold compute_H_drift, py_sum, drift_terms.
  generalize HZero. induction (drift_hamiltonians (drift self)) as [|d l IH];
    intros acc; simpl; [done|]. apply IH.
Qed.

Lemma control_terms_ctrls (self : Processor) rows n :
  zip_with (fun row ctrl => HQobj (qscale (nth n row 0%Q) ctrl))
           rows (ctrls self) =
  map HQobj (control_terms self rows n).
Proof.
  unfold ctrls, control_terms. generalize (pulses self).
  induction rows as [|row rows IH]; intros [|p ps]; simpl; try done.
  by rewrite IH.
Qed.

Lemma generator_Some self rows n :
  rows ≠ [] → length rows = length (pulses self) →
  ∃ G, generator self rows n = Some G.
Proof.
  intros Hne Hlen. unfold generator.
  assert (Hc : ∃ c, sum_of (control_terms self rows n) = Some c).
  { unfold control_terms. destruct rows, (pulses self); try done.
    simpl. eauto. }
  destruct Hc as [c ->]. destruct (sum_of (drift_terms self)); eauto.
Qed.

(** The terms of the sum, read through [coeffs[m, n]] and
    [self.ctrls[m]], are the zip of the rows and the controls. *)
Lemma analytic_terms self rows n :
  length rows = length (pulses self) →
  Forall (fun row => n < length row) rows →
  mapM (fun m =>
          c ← getitem2 (Arr2 rows) m n;
          ctrl ← getitem (ctrls self) m;
          Ok (HQobj (qscale c ctrl)))
       (seq 0 (length (ctrls self))) =
  Ok (zip_with (fun row ctrl => HQobj (qscale (nth n row 0%Q) ctrl))
               rows (ctrls self)).
Proof.
  intros Hlen Hrows. apply mapM_Ok_Forall2.
  assert (Hlc : length (ctrls self) = length rows).
  { unfold ctrls. by rewrite length_map. }
  apply Forall2_same_length_lookup_2.
  - rewrite length_seq, length_zip_with. lia.
  - intros i m y Hm Hy. apply lookup_seq in Hm as [-> _]. simpl.
    apply lookup_zip_with_Some in Hy as (row & ctrl & -> & Hrow & Hctrl).
    unfold getitem2. rewrite (getitem_Ok _ _ _ Hrow). simpl.
    rewrite Forall_forall in Hrows.
    destruct (lookup_lt_is_Some_2 row n) as [c Hc].
    { apply Hrows. by eapply list_elem_of_lookup_2. }
    rewrite (getitem_Ok _ _ _ Hc). simpl.
    rewrite (getitem_Ok _ _ _ Hctrl). simpl.
    by rewrite (nth_lookup_Some _ _ _ _ Hc).
Qed.

Lemma analytic_step_Ok self tl rows n t_n t_next :
  rows ≠ [] → length rows = length (pulses self) →
  Forall (fun row => length row = length tl) rows →
  tl !! n = Some t_n → tl !! S n = Some t_next →
  ∃ G, generator self rows n = Some G ∧
       analytic_step self tl (Arr2 rows) (compute_H_drift self) n =
       Ok (eliminate_auxillary_modes
             (expm (qscale (t_next - t_n) (q_minus_i G)))).
Proof.
  intros Hne Hlen Hrows Hn Hnext.
  destruct (generator_Some self rows n Hne Hlen) as [G HG].
  exists G. split; [done|]. unfold analytic_step.
  rewrite analytic_terms; [|done|].
  - simpl. rewrite control_terms_ctrls, py_sum_HQobj.
    rewrite compute_H_drift_terms.
    assert (HH : ham_add
                   match sum_of (drift_terms self) with
                   | Some x => HQobj x
                   | None => HZero
                   end
                   match sum_of (control_terms self rows n) with
                   | Some x => HQobj x
                   | None => HZero
                   end = HQobj G).
    { unfold generator in HG.
      destruct (sum_of (drift_terms self)),
               (sum_of (control_terms self rows n)); simpl;
        congruence. }
    rewrite HH.
    rewrite Nat.add_1_r, (getitem_Ok _ _ _ Hnext). simpl.
    by rewrite (getitem_Ok _ _ _ Hn).
  - eapply Forall_impl; [exact Hrows|]. intros row Hrow. simpl in Hrow.
    rewrite Hrow. by eapply lookup_lt_Some.
Qed.

(** The rows [get_full_coeffs] computes for pulses with array
    coefficients are what [_fill_coeff] returns for them. *)
Lemma full_coeffs_row_array self tl pulse a row :
  proc_spline_kind self = "step_func" ∨ proc_spline_kind self = "cubic" →
  coeff pulse = CArray a →
  _fill_coeff a (tlist pulse) (Some tl)
              (bool_decide (proc_spline_kind self = "step_func")) = Ok row →
  full_coeffs_row self (Some tl) pulse = Ok row.
Proof.
  unfold full_coeffs_row. intros Hk -> Hf.
  assert (Hgoal :
    (if decide (proc_spline_kind self = "step_func")
     then _fill_coeff a (tlist pulse) (Some tl) true
     else if decide (proc_spline_kind self = "cubic")
          then _fill_coeff a (tlist pulse) (Some tl) false
          else Raise (ValueError "Unknown spline kind.")) = Ok row).
  { destruct (decide (proc_spline_kind self = "step_func")) as [Hs|Hs].
    - by rewrite bool_decide_eq_true_2 in Hf.
    - rewrite bool_decide_eq_false_2 in Hf by done.
      destruct Hk as [Hk|Hk]; [done|]. by rewrite decide_True. }
  by destruct (tlist pulse).
Qed.

(** C1. For a processor whose pulses pass validation and have array
    coefficients, with the canonical grid [tl] and the rows [rows] that
    [_fill_coeff] returns for the pulses under the processor's kind,
    [step_func] or [cubic] alike, [run_analytically] returns the initial
    state, when one is given, followed by one propagator for each pair
    [(tl[n], tl[n+1])]: the hook [eliminate_auxillary_modes] applied to
    [expm(-1j * G_n * (tl[n+1] - tl[n]))], where [G_n] is the drift, the
    sum of the expanded drift terms, plus the sum over the pulses of the
    entry [n] of the pulse's row, its value at the left end point, times
    the pulse's expanded operator; a global phase entry follows only
    where a subclass provides one. *)
Theorem run_analytically_spec (self : Processor) (init_state : option Qobj)
    (tl : list Q) (rows : list (list Q)) :
  _is_pulses_valid self = Ok true →
  get_full_tlist self default_tol = Some tl →
  proc_spline_kind self = "step_func" ∨ proc_spline_kind self = "cubic" →
  Forall2 (fun pulse row =>
             ∃ a, coeff pulse = CArray a ∧
                  _fill_coeff a (tlist pulse) (Some tl)
                    (bool_decide (proc_spline_kind self = "step_func"))
                  = Ok row ∧
                  length row = length tl)
          (pulses self) rows →
  ∃ steps,
    run_analytically self init_state =
      Ok (option_list init_state ++ steps ++ phase_entry self) ∧
    length steps = length tl - 1 ∧
    ∀ n t_n t_next, tl !! n = Some t_n → tl !! S n = Some t_next →
      ∃ G, generator self rows n = Some G ∧
           steps !! n =
           Some (eliminate_auxillary_modes
                   (expm (qscale (t_next - t_n) (q_minus_i G)))).
Proof.
  intros Hv Htl Hk Hrows.
  assert (Hne : pulses self ≠ []).
  { intros Hnil. unfold get_full_tlist in Htl. by rewrite Hnil in Htl. }
  assert (Hlen : length rows = length (pulses self)).
  { symmetry. by eapply Forall2_length. }
  assert (Hrne : rows ≠ []).
  { intros ->. destruct (pulses self); done. }
  assert (Hrl : Forall (fun row => length row = length tl) rows).
  { apply Forall_forall. intros row Hrow.
    apply list_elem_of_lookup_1 in Hrow as [i Hi].
    destruct (Forall2_lookup_r _ _ _ _ _ Hrows Hi)
      as (pulse & _ & a & _ & _ & Hl). exact Hl. }
  assert (Hc : get_full_coeffs self None = Ok (Arr2 rows)).
  { rewrite get_full_coeffs_valid by done. simpl. rewrite Htl.
    assert (Hm : mapM (full_coeffs_row self (Some tl)) (pulses self)
                 = Ok rows).
    { apply mapM_Ok_Forall2. eapply Forall2_impl; [exact Hrows|].
      intros pulse row (a & Ha & Hf & _). simpl.
      by eapply full_coeffs_row_array. }
    by rewrite Hm. }
  destruct (mapM_total
              (analytic_step self tl (Arr2 rows) (compute_H_drift self))
              (seq 0 (length tl - 1))) as (steps & Hsteps & Hf).
  { intros n Hn. apply elem_of_seq in Hn as [_ Hn].
    destruct (lookup_lt_is_Some_2 tl n) as [t_n Ht]; [lia|].
    destruct (lookup_lt_is_Some_2 tl (S n)) as [t_next Ht']; [lia|].
    destruct (analytic_step_Ok self tl rows n t_n t_next) as (G & _ & HG);
      try done. eauto. }
  exists steps. split; [|split].
  - unfold run_analytically. rewrite Hc, Htl. simpl. rewrite Hsteps. simpl.
    by destruct init_state.
  - apply Forall2_length in Hf. by rewrite length_seq in Hf.
  - intros n t_n t_next Hn Hnext.
    destruct (analytic_step_Ok self tl rows n t_n t_next) as (G & HG & HU);
      try done.
    exists G. split; [done|].
    assert (Hs : seq 0 (length tl - 1) !! n = Some n).
    { apply lookup_seq. split; [done|].
      apply lookup_lt_Some in Hnext. lia. }
    destruct (Forall2_lookup_l _ _ _ _ _ Hf Hs) as (U & HUn & HUeq).
    rewrite HUn. simpl in HUeq. congruence.
Qed.

(** On the base class no global phase entry is appended. *)
Lemma phase_entry_base (self : Processor) :
  @phase_entry QS base_class self = [].
Proof. reflexivity. Qed.

End Theory.

(** ** [get_noisy_pulses] *)

Section StoreTheory.
Context `{QS : QobjSig} `{NL : !NoiseLib}.

Lemma alloc_fresh (o : Obj) (h h' : gmap loc Obj) l :
  alloc o h = (h', l) →
  h !! l = None ∧ h' = <[l := o]> h ∧ h ⊆ h'.
Proof.
  unfold alloc. intros [= <- <-].
  assert (Hf : h !! fresh (dom h) = None).
  { apply not_elem_of_dom. apply is_fresh. }
  split; [done|]. split; [done|]. by apply insert_subseteq.
Qed.

(** Deep copies are new objects, and copying changes no object. *)
Lemma deepcopy_items_fresh (h0 : gmap loc Obj) memo items h h' out :
  deepcopy_items memo items h = (h', out) →
  h0 ⊆ h →
  (∀ l l', memo !! l = Some l' → h0 !! l' = None) →
  Forall (fun l => is_Some (h0 !! l)) items →
  h0 ⊆ h' ∧ Forall (fun l' => h0 !! l' = None) out.
Proof.
  revert memo h h' out.
  induction items as [|l rest IH]; intros memo h h' out Hd Hsub Hmemo Hit.
  - injection Hd as <- <-. split; [done | constructor].
  - apply Forall_cons in Hit as [[o Ho] Hrest]. simpl in Hd.
    destruct (memo !! l) as [l'|] eqn:Hm.
    + destruct (deepcopy_items memo rest h) as [h1 out1] eqn:Hr.
      apply pair_equal_spec in Hd as [<- <-].
      destruct (IH _ _ _ _ Hr Hsub Hmemo Hrest) as [Hs Ho1].
      split; [done|]. constructor; [by eapply Hmemo | done].
    + rewrite (lookup_weaken _ _ _ _ Ho Hsub) in Hd. simpl in Hd.
      set (l' := fresh (dom h)) in *.
      assert (Hl' : h !! l' = None).
      { apply not_elem_of_dom. apply is_fresh. }
      assert (Hsub1 : h ⊆ <[l':=o]> h) by (by apply insert_subseteq).
      destruct (deepcopy_items (<[l:=l']> memo) rest (<[l':=o]> h))
        as [h2 out2] eqn:Hr.
      apply pair_equal_spec in Hd as [<- <-].
      assert (Hl0 : h0 !! l' = None).
      { destruct (h0 !! l') as [o'|] eqn:Ho'; [|done].
        rewrite (lookup_weaken _ _ _ _ Ho' Hsub) in Hl'. done. }
      destruct (IH _ _ _ _ Hr) as [Hs Ho2]; [by etrans| |done|].
      * intros k k' Hk. apply lookup_insert_Some in Hk as [[_ <-]|[_ Hk]];
          [done | by eapply Hmemo].
      * split; [done|]. by constructor.
Qed.

Lemma deepcopy_fresh (h : gmap loc Obj) lst items h' l' :
  h !! lst = Some (OList items) →
  Forall (fun l => is_Some (h !! l)) items →
  deepcopy lst h = (h', l') →
  h ⊆ h' ∧ h !! l' = None ∧
  ∃ items', h' !! l' = Some (OList items') ∧
            Forall (fun x => h !! x = None) items'.
Proof.
  intros Hl Hit Hd. unfold deepcopy in Hd. rewrite Hl in Hd.
  destruct (deepcopy_items ∅ items h) as [h1 items'] eqn:Hc.
  destruct (deepcopy_items_fresh h ∅ items h h1 items' Hc) as [Hs Hf];
    [done| |done|].
  { intros k k' Hk. by rewrite lookup_empty in Hk. }
  apply alloc_fresh in Hd as (Hl' & -> & Hsub).
  split; [by etrans|]. split.
  - destruct (h !! l') as [o|] eqn:Ho; [|done].
    by rewrite (lookup_weaken _ _ _ _ Ho Hs) in Hl'.
  - exists items'. split; [by rewrite lookup_insert_eq | done].
Qed.

(** C5. [get_noisy_pulses] leaves the stored pulse list as it is: after
    the call the list object of [self.pulses] has the same entries, each
    the same object with the same contents; the list returned is another
    object, and none of its entries is one of the stored pulses. This
    holds for a [process_noise] that changes and returns only what it can
    reach from the list it is given or creates. *)
Theorem get_noisy_pulses_frame (self : Processor_ loc loc)
    (device_noise drift_ : bool) (h h' : gmap loc Obj) (out : loc)
    (items : list loc) (d : Drift) :
  frame_respecting NL →
  h !! pulses self = Some (OList items) →
  Forall (fun l => ∃ p, h !! l = Some (OPulse p)) items →
  h !! drift self = Some (ODrift d) →
  get_noisy_pulses self device_noise drift_ h = (h', out) →
  h' !! pulses self = Some (OList items) ∧
  (∀ l, l ∈ items → h' !! l = h !! l) ∧
  out ≠ pulses self ∧
  ∃ ys, h' !! out = Some (OList ys) ∧ ∀ y, y ∈ ys → y ∉ items.
Proof.
  intros Hframe Hl Hit Hdr Hg. unfold get_noisy_pulses in Hg.
  destruct (deepcopy (pulses self) h) as [h1 pl] eqn:Hd.
  destruct (process_noise pl (noise self) (dims self) (t1 self) (t2 self)
                          device_noise h1) as [h2 np] eqn:Hp.
  injection Hg as <- <-.
  destruct (deepcopy_fresh h (pulses self) items h1 pl Hl) as
    (Hsub & Hpl & items' & Hpl1 & Hnew); [|done|].
  { eapply Forall_impl; [exact Hit|]. intros l [p Hp']. by eexists. }
  destruct (Hframe _ _ _ _ _ _ _ _ _ _ Hpl1 Hp) as
    (Hkeep & (xs & Hxs & Hxin) & Hout).
  assert (Hreach : ∀ x, x ∈ reach h1 pl → h !! x = None).
  { intros x. unfold reach. rewrite Hpl1. intros Hx.
    apply elem_of_cons in Hx as [->|Hx]; [done|].
    rewrite Forall_forall in Hnew. by apply Hnew. }
  assert (Hold : ∀ l o, h !! l = Some o → h2 !! l = Some o).
  { intros l o Ho. apply Hkeep; [by eapply lookup_weaken|].
    intros Hr. apply Hreach in Hr. congruence. }
  assert (Hfresh1 : ∀ x, h1 !! x = None → h !! x = None).
  { intros x Hx. destruct (h !! x) as [o|] eqn:Ho; [|done].
    by rewrite (lookup_weaken _ _ _ _ Ho Hsub) in Hx. }
  assert (Hnp : h !! np = None).
  { destruct Hout as [Hr|Hn]; [by apply Hreach | by apply Hfresh1]. }
  assert (Hxs' : ∀ x, x ∈ xs → x ∉ items).
  { intros x Hx Hxi. rewrite Forall_forall in Hit.
    destruct (Hit x Hxi) as [p Hp'].
    destruct (Hxin x Hx) as [Hr|Hn];
      [apply Hreach in Hr | apply Hfresh1 in Hn]; congruence. }
  assert (Hne : np ≠ pulses self) by congruence.
  destruct drift_.
  - unfold list_iadd. rewrite Hxs.
    split; [rewrite lookup_insert_ne by done; by apply Hold|].
    split; [|split; [done|]].
    + intros l Hli. rewrite Forall_forall in Hit.
      destruct (Hit l Hli) as [p Hp'].
      rewrite lookup_insert_ne by congruence. rewrite Hp'. by apply Hold.
    + exists (xs ++ [drift self]). split; [by rewrite lookup_insert_eq|].
      intros y Hy. apply elem_of_app in Hy as [Hy|Hy]; [by apply Hxs'|].
      apply list_elem_of_singleton in Hy as ->. intros Hdi.
      rewrite Forall_forall in Hit. destruct (Hit _ Hdi) as [p Hp'].
      congruence.
  - split; [by apply Hold|]. split; [|split; [done|]].
    + intros l Hli. rewrite Forall_forall in Hit.
      destruct (Hit l Hli) as [p Hp']. rewrite Hp'. by apply Hold.
    + exists xs. split; [done|]. exact Hxs'.
Qed.

End StoreTheory.

(** * Further properties *)

Section MoreTheory.
Context `{QS : QobjSig} `{PL : !PulseLib} `{SC : !Subclass}
        `{SB : !SolverBackend}.

(** ** What [add_control] and [add_drift] leave as it is *)

Lemma valid_loop_true k (l : list Pulse) b : valid_loop k l = Ok b → b = true.
Proof.
  revert k. induction l as [|p l IH]; intros k; simpl; [congruence|].
  destruct (check_pulse k p); simpl; [apply IH | discriminate].
Qed.

Lemma valid_loop_app k (l1 l2 : list Pulse) :
  valid_loop k (l1 ++ l2) =
  (valid_loop k l1;; valid_loop (k + length l1) l2).
Proof.
  revert k. induction l1 as [|p l1 IH]; intros k; simpl.
  - by rewrite Nat.add_0_r.
  - destruct (check_pulse k p); simpl; [|done].
    rewrite IH. by rewrite Nat.add_succ_r.
Qed.

(** Appending constant pulses does not change what the validator
    answers. *)
Lemma valid_loop_app_constant k (l1 l2 : list Pulse) :
  Forall constant_pulse l2 →
  valid_loop k (l1 ++ l2) = valid_loop k l1.
Proof.
  intros Hc. rewrite valid_loop_app.
  assert (H2 : valid_loop (k + length l1) l2 = Ok true).
  { apply valid_loop_Ok. eapply Forall_impl; [exact Hc|]. by left. }
  rewrite H2. destruct (valid_loop k l1) as [b|e] eqn:H1; simpl; [|done].
  by rewrite (valid_loop_true _ _ _ H1).
Qed.

(** The pulse [add_control] creates without [cyclic_permutation] *)
Lemma add_control_shape self operand targets_ cyc lbl self' :
  add_control self operand targets_ cyc lbl = Ok self' →
  ∃ q new,
    operand = IsQobj q ∧ isherm q = true ∧
    self' = set_pulses self (pulses self ++ new) ∧
    Forall (fun pulse =>
              off_pulse pulse ∧ qobj pulse = q ∧ label pulse = lbl ∧
              spline_kind pulse = Some (proc_spline_kind self)) new ∧
    length new = (if cyc then num_qubits self else 1).
Proof.
  unfold add_control. destruct operand as [q|]; [|discriminate].
  destruct (isherm q) eqn:Hh; simpl; [|discriminate].
  destruct cyc; intros [= <-]; exists q.
  - exists (map (cyclic_pulse self q
                   (normalize_targets (dims0_len q) targets_) lbl)
                (seq 0 (num_qubits self))).
    split; [done|]. split; [done|]. split.
    + f_equal.
      apply (foldl_snoc (cyclic_pulse self q
                           (normalize_targets (dims0_len q) targets_) lbl)).
    + split; [|by rewrite length_map, length_seq].
      apply Forall_forall. intros p Hp.
      by apply list_elem_of_fmap in Hp as (i & -> & _).
  - eexists. split; [done|]. split; [done|]. split; [done|].
    split; [|done]. by repeat constructor.
Qed.

(** X1. A call of [add_control] that returns does not change the answer
    of the validator: the pulses it appends are off, and pass. *)
Theorem add_control_keeps_validation (self self' : Processor)
    (operand : PyOperand) (targets_ : TargetsArg) (cyc : bool)
    (lbl : option string) :
  add_control self operand targets_ cyc lbl = Ok self' →
  _is_pulses_valid self' = _is_pulses_valid self.
Proof.
  intros H. apply add_control_shape in H as (q & new & _ & _ & -> & Hn & _).
  unfold _is_pulses_valid. simpl. apply valid_loop_app_constant.
  eapply Forall_impl; [exact Hn|]. intros p ((_ & Hc) & _). by left.
Qed.

Lemma omap_tlist_app_off (l1 l2 : list Pulse) :
  Forall off_pulse l2 → omap tlist (l1 ++ l2) = omap tlist l1.
Proof.
  intros H. rewrite omap_app.
  assert (H2 : omap tlist l2 = []).
  { apply omap_tlist_nil. eapply Forall_impl; [exact H|]. by intros p [? _]. }
  by rewrite H2, app_nil_r.
Qed.

(** X2. A call of [add_control] that returns does not change the merged
    time grid, whatever the tolerance. *)
Theorem add_control_keeps_full_tlist (self self' : Processor)
    (operand : PyOperand) (targets_ : TargetsArg) (cyc : bool)
    (lbl : option string) (tol : Q) :
  add_control self operand targets_ cyc lbl = Ok self' →
  get_full_tlist self' tol = get_full_tlist self tol.
Proof.
  intros H. apply add_control_shape in H as (q & new & _ & _ & -> & Hn & _).
  unfold get_full_tlist. simpl. rewrite omap_tlist_app_off; [done|].
  eapply Forall_impl; [exact Hn|]. by intros p [? _].
Qed.

(** X3. With [cyclic_permutation] on a processor of [N > 0] subsystems,
    every target of every pulse [add_control] creates is an index in
    [0, N), whatever integers the target list holds. *)
Theorem add_control_cyclic_targets_in_range (self : Processor) (q : Qobj)
    (T : list Z) (lbl : option string) :
  isherm q = true →
  0 < num_qubits self →
  ∃ new,
    add_control self (IsQobj q) (TargetsList T) true lbl =
      Ok (set_pulses self (pulses self ++ new)) ∧
    ∀ pulse t, pulse ∈ new → t ∈ targets pulse →
               (0 ≤ t < Z.of_nat (num_qubits self))%Z.
Proof.
  intros Hh HN.
  exists (map (cyclic_pulse self q T lbl) (seq 0 (num_qubits self))).
  split; [by apply add_control_cyclic|].
  intros pulse t Hp Ht. apply list_elem_of_fmap in Hp as (i & -> & _).
  simpl in Ht. apply list_elem_of_fmap in Ht as (t0 & -> & _).
  apply Z.mod_pos_bound. lia.
Qed.

(** X4. [add_drift] never changes the pulses. Without
    [cyclic_permutation] it adds one term, and the drift Hamiltonian of
    [run_analytically] becomes the former one plus the expanded operator;
    with it, the [N] rotated terms follow the former ones in order. *)
Theorem add_drift_effect (self : Processor) (q : Qobj) (T : list Z) :
  isherm q = true →
  (∃ self',
     add_drift self (IsQobj q) (TargetsList T) false = Ok self' ∧
     pulses self' = pulses self ∧
     compute_H_drift self' =
       ham_add (compute_H_drift self)
               (HQobj (drift_get_qobj (q, T) (dims self)))) ∧
  (∃ self',
     add_drift self (IsQobj q) (TargetsList T) true = Ok self' ∧
     pulses self' = pulses self ∧
     drift_hamiltonians (drift self') =
       drift_hamiltonians (drift self) ++
       map (fun i => (q, temp_targets (num_qubits self) i T))
           (seq 0 (num_qubits self))).
Proof.
  intros Hh. unfold add_drift. rewrite Hh. simpl. split.
  - eexists. split; [done|]. split; [done|].
    unfold compute_H_drift. simpl. by rewrite foldl_app.
  - eexists. split; [done|]. split; [done|]. simpl.
    generalize (drift self). generalize (seq 0 (num_qubits self)).
    induction l as [|i l IH]; intros d; simpl.
    + by rewrite app_nil_r.
    + rewrite IH. simpl. by rewrite <- app_assoc.
Qed.

(** ** [pulse_mode] and [add_pulse] *)

Lemma well_formed_set_kind (pulse : Pulse) (k : string) :
  well_formed_pulse (set_spline_kind pulse (Some k)) ↔
  constant_pulse pulse ∨
  ∃ tl n, tlist pulse = Some tl ∧ len_coeff (coeff pulse) = Ok n ∧
          if decide (k = "step_func")
          then n = (Z.of_nat (length tl) - 1)%Z ∨ n = Z.of_nat (length tl)
          else n = Z.of_nat (length tl).
Proof.
  unfold well_formed_pulse, constant_pulse, length_rule. simpl.
  destruct (decide (k = "step_func")) as [->|Hk].
  - destruct (decide (Some "step_func" = Some "step_func")); done.
  - destruct (decide (Some k = Some "step_func")); [congruence | done].
Qed.

(** A pulse accepted under its own kind is accepted under [step_func]. *)
Lemma well_formed_step pulse :
  well_formed_pulse pulse →
  well_formed_pulse (set_spline_kind pulse (Some "step_func")).
Proof.
  intros [Hc|(tl & n & Ht & Hn & Hr)]; apply well_formed_set_kind;
    [by left|].
  right. exists tl, n. split; [done|]. split; [done|]. simpl.
  unfold length_rule in Hr. destruct (decide _); [done | by right].
Qed.

(** X5. Setting [pulse_mode] to ["discrete"] or ["continuous"] and
    reading it gives the mode back; every pulse then has the kind of the
    processor, and grids, coefficients and labels are untouched. Any other
    mode raises a [ValueError]. *)
Theorem set_pulse_mode_round_trip (self : Processor) (mode : string) :
  (∀ self', set_pulse_mode self mode = Ok self' →
     pulse_mode self' = Ok mode ∧
     Forall (fun pulse =>
               spline_kind pulse = Some (proc_spline_kind self'))
            (pulses self') ∧
     map tlist (pulses self') = map tlist (pulses self) ∧
     map coeff (pulses self') = map coeff (pulses self) ∧
     map label (pulses self') = map label (pulses self)) ∧
  (mode ≠ "discrete" → mode ≠ "continuous" →
   set_pulse_mode self mode =
   Raise (ValueError "Pulse mode must be either discrete or continuous.")).
Proof.
  unfold set_pulse_mode. split.
  - intros self' H.
    destruct (decide (mode = "discrete")) as [->|H1];
      [|destruct (decide (mode = "continuous")) as [->|H2]];
      simpl in H; try discriminate; injection H as <-;
      (split; [reflexivity|]); simpl;
      (split; [apply Forall_forall; intros p Hp;
               by apply list_elem_of_fmap in Hp as (p0 & -> & _) |]);
      rewrite <- !list_fmap_compose; done.
  - intros H1 H2. by rewrite !decide_False.
Qed.

(** X6. Switching a processor that passes validation to ["discrete"]
    keeps it passing: a coefficient length accepted by any kind is
    accepted by [step_func]. *)
Theorem set_pulse_mode_discrete_valid (self : Processor) :
  _is_pulses_valid self = Ok true →
  ∃ self', set_pulse_mode self "discrete" = Ok self' ∧
           _is_pulses_valid self' = Ok true.
Proof.
  intros Hv. eexists. split; [reflexivity|].
  apply valid_loop_Ok in Hv. apply valid_loop_Ok. simpl.
  apply Forall_fmap. eapply Forall_impl; [exact Hv|].
  intros p Hp. by apply well_formed_step.
Qed.

(** X7. After switching to ["continuous"] the processor passes
    validation exactly when every pulse that is not constant has a grid
    and as many coefficients as grid points: a [step_func] pulse with one
    coefficient less no longer passes. *)
Theorem set_pulse_mode_continuous_valid (self : Processor) :
  ∃ self', set_pulse_mode self "continuous" = Ok self' ∧
    (_is_pulses_valid self' = Ok true ↔
     Forall (fun pulse =>
               constant_pulse pulse ∨
               ∃ tl n, tlist pulse = Some tl ∧
                       len_coeff (coeff pulse) = Ok n ∧
                       n = Z.of_nat (length tl))
            (pulses self)).
Proof.
  eexists. split; [reflexivity|]. unfold _is_pulses_valid.
  rewrite valid_loop_Ok. simpl. rewrite Forall_fmap.
  apply Forall_iff. intros p. simpl. by rewrite well_formed_set_kind.
Qed.

(** X8. [add_pulse] of a pulse the validator accepts keeps a passing
    processor passing, also when it fills in the kind the pulse lacks;
    the pulses before it stay as they are. *)
Theorem add_pulse_keeps_valid (self : Processor) (pulse : Pulse) :
  _is_pulses_valid self = Ok true →
  well_formed_pulse pulse →
  _is_pulses_valid (add_pulse self pulse) = Ok true ∧
  take (length (pulses self)) (pulses (add_pulse self pulse)) =
    pulses self ∧
  ∃ pulse', pulses (add_pulse self pulse) = pulses self ++ [pulse'] ∧
            is_Some (spline_kind pulse') ∧
            tlist pulse' = tlist pulse ∧ coeff pulse' = coeff pulse.
Proof.
  intros Hv Hp. unfold add_pulse, _is_pulses_valid in *. simpl.
  split; [|split].
  - apply valid_loop_Ok. apply valid_loop_Ok in Hv.
    apply Forall_app. split; [done|]. constructor; [|constructor].
    destruct (spline_kind pulse) as [k|] eqn:Hk; [done|].
    apply well_formed_set_kind.
    destruct Hp as [Hc|(tl & n & Ht & Hn & Hr)]; [by left|].
    right. exists tl, n. split; [done|]. split; [done|].
    unfold length_rule in Hr. rewrite Hk in Hr.
    rewrite decide_False in Hr by done.
    destruct (decide _); [by right | done].
  - by rewrite take_app_length.
  - eexists. split; [reflexivity|].
    destruct (spline_kind pulse) as [k|] eqn:Hk; simpl; rewrite ?Hk; eauto.
Qed.

(** ** [remove_pulse] *)

(** The loop at position 0, by the head of the list. *)
Lemma remove_label_loop_head (L : option string) (p : Pulse) rest :
  remove_label_loop L 0 (p :: rest) =
  if decide (label p = L)
  then match rest with
       | [] => []
       | q :: rest' => q :: remove_label_loop L 0 rest'
       end
  else p :: remove_label_loop L 0 rest.
Proof.
  destruct (decide (label p = L)) as [Hp|Hp].
  - destruct rest as [|q rest'].
    + rewrite remove_label_loop_step. simpl. rewrite decide_True by done.
      by rewrite remove_label_loop_step.
    + by apply remove_label_loop_skips.
  - rewrite remove_label_loop_step. simpl. rewrite decide_False by done.
    apply remove_label_loop_cons.
Qed.

Lemma remove_label_loop_nil (L : option string) :
  remove_label_loop L 0 ([] : list Pulse) = [].
Proof. by rewrite remove_label_loop_step. Qed.

Lemma remove_label_loop_others (L : option string) (l : list Pulse) :
  filter (fun p => label p ≠ L) (remove_label_loop L 0 l) =
  filter (fun p => label p ≠ L) l.
Proof.
  remember (length l) as n eqn:Hn. revert l Hn.
  induction n as [n IH] using lt_wf_ind. intros l Hn.
  destruct l as [|p rest]; [by rewrite remove_label_loop_nil|].
  rewrite remove_label_loop_head.
  destruct (decide (label p = L)) as [Hp|Hp].
  - rewrite (filter_cons_False _ p) by (intros H; by apply H).
    destruct rest as [|q rest']; [done|].
    rewrite !(filter_cons _ q).
    rewrite (IH (length rest')); [done | simpl in *; lia | done].
  - rewrite !(filter_cons_True _ p) by done.
    f_equal. apply (IH (length rest)); [simpl in *; lia | done].
Qed.

Lemma remove_label_loop_sublist (L : option string) (l : list Pulse) :
  remove_label_loop L 0 l `sublist_of` l.
Proof.
  remember (length l) as n eqn:Hn. revert l Hn.
  induction n as [n IH] using lt_wf_ind. intros l Hn.
  destruct l as [|p rest]; [by rewrite remove_label_loop_nil|].
  rewrite remove_label_loop_head.
  destruct (decide (label p = L)) as [Hp|Hp].
  - destruct rest as [|q rest']; [apply sublist_nil_l|].
    apply sublist_cons, sublist_skip.
    apply (IH (length rest')); [simpl in *; lia | done].
  - apply sublist_skip. apply (IH (length rest)); [simpl in *; lia | done].
Qed.

Lemma remove_label_loop_all (L : option string) (l : list Pulse) :
  no_adjacent_label L l →
  remove_label_loop L 0 l = filter (fun p => label p ≠ L) l.
Proof.
  remember (length l) as n eqn:Hn. revert l Hn.
  induction n as [n IH] using lt_wf_ind. intros l Hn Hadj.
  destruct l as [|p rest]; [by rewrite remove_label_loop_nil|].
  rewrite remove_label_loop_head.
  destruct (decide (label p = L)) as [Hp|Hp].
  - rewrite (filter_cons_False _ p) by (intros H; by apply H).
    destruct rest as [|q rest']; [done|].
    destruct Hadj as [Hpq Hadj].
    assert (Hq : label q ≠ L) by (intros Hq; by apply Hpq).
    rewrite (filter_cons_True _ q) by done. f_equal.
    apply (IH (length rest')); [simpl in *; lia | done |].
    destruct rest'; [done | by destruct Hadj].
  - rewrite (filter_cons_True _ p) by done. f_equal.
    apply (IH (length rest)); [simpl in *; lia | done |].
    destruct rest; [done | by destruct Hadj].
Qed.

(** X9. [remove_pulse] by label always returns; it deletes no pulse
    that has another label and keeps the order of the pulses: what is
    left is a sublist of the pulse list with all pulses of other labels
    in it. *)
Theorem remove_pulse_label_keeps_others (self : Processor)
    (L : option string) :
  ∃ self', remove_pulse self IndicesNone L = Ok self' ∧
    pulses self' `sublist_of` pulses self ∧
    filter (fun p => label p ≠ L) (pulses self') =
    filter (fun p => label p ≠ L) (pulses self).
Proof.
  eexists. split; [reflexivity|]. simpl.
  split; [apply remove_label_loop_sublist | apply remove_label_loop_others].
Qed.

(** X10. When no two neighbours in the pulse list both carry the label,
    [remove_pulse] by label deletes every pulse with the label: what is
    left are the pulses of other labels, and none with the label. *)
Theorem remove_pulse_label_all (self : Processor) (L : option string) :
  no_adjacent_label L (pulses self) →
  ∃ self', remove_pulse self IndicesNone L = Ok self' ∧
    pulses self' = filter (fun p => label p ≠ L) (pulses self) ∧
    Forall (fun p => label p ≠ L) (pulses self').
Proof.
  intros Hadj. eexists. split; [reflexivity|]. simpl.
  rewrite remove_label_loop_all by done. split; [done|].
  apply Forall_forall. intros p Hp. by apply list_elem_of_filter in Hp as [? _].
Qed.

Lemma py_del_in_range {A} (l : list A) (k : nat) :
  k < length l → py_del l (Z.of_nat k) = Ok (delete k l).
Proof.
  intros Hk. unfold py_del.
  assert (H : ((0 <=? Z.of_nat k) && (Z.of_nat k <? Z.of_nat (length l)))%Z
              = true).
  { apply andb_true_iff. split; [apply Z.leb_le | apply Z.ltb_lt]; lia. }
  by rewrite H, Nat2Z.id.
Qed.

(** X11. [remove_pulse] with one index [i]: for [0 <= i < len] it deletes
    the pulse at [i], for [-len <= i < 0] the pulse at [len + i], and for
    any other index it raises [IndexError]; the label is not looked at. *)
Theorem remove_pulse_index_bounds (self : Processor) (i : Z)
    (L : option string) :
  let n := Z.of_nat (length (pulses self)) in
  ((0 ≤ i < n)%Z →
   remove_pulse self (IndicesInt i) L =
   Ok (set_pulses self (delete (Z.to_nat i) (pulses self)))) ∧
  ((- n ≤ i < 0)%Z →
   remove_pulse self (IndicesInt i) L =
   Ok (set_pulses self (delete (Z.to_nat (n + i)) (pulses self)))) ∧
  ((i < - n ∨ n ≤ i)%Z →
   remove_pulse self (IndicesInt i) L =
   Raise (IndexError "list assignment index out of range")).
Proof.
  intros n. unfold remove_pulse, sort_reverse. simpl. unfold py_del.
  fold n. split; [|split]; intros Hi.
  - assert (H : ((0 <=? i) && (i <? n))%Z = true).
    { apply andb_true_iff. split; [apply Z.leb_le | apply Z.ltb_lt]; lia. }
    by rewrite H.
  - assert (H : ((0 <=? i) && (i <? n))%Z = false).
    { apply andb_false_iff. left. apply Z.leb_gt. lia. }
    assert (H' : ((- n <=? i) && (i <? 0))%Z = true).
    { apply andb_true_iff. split; [apply Z.leb_le | apply Z.ltb_lt]; lia. }
    rewrite H, H'. simpl. by rewrite Z.add_comm.
  - assert (H : ((0 <=? i) && (i <? n))%Z = false).
    { apply andb_false_iff.
      destruct Hi; [left; apply Z.leb_gt | right; apply Z.ltb_ge]; lia. }
    assert (H' : ((- n <=? i) && (i <? 0))%Z = false).
    { apply andb_false_iff.
      destruct Hi; [left; apply Z.leb_gt | right; apply Z.ltb_ge]; lia. }
    by rewrite H, H'.
Qed.

Lemma without_positions_id {A} (ks : list nat) i (l : list A) :
  (∀ j, (i ≤ j)%nat → j ∉ ks) → without_positions ks i l = l.
Proof.
  revert i. induction l as [|x l IH]; intros i H; simpl; [done|].
  rewrite decide_False by (apply H; lia). f_equal. apply IH.
  intros j Hj. apply H. lia.
Qed.

Lemma without_positions_ext {A} (ks ks' : list nat) i (l : list A) :
  (∀ j, j ∈ ks ↔ j ∈ ks') →
  without_positions ks i l = without_positions ks' i l.
Proof.
  intros H. revert i. induction l as [|x l IH]; intros i; simpl; [done|].
  rewrite IH.
  destruct (decide (i ∈ ks)) as [H1|H1], (decide (i ∈ ks')) as [H2|H2];
    try done; exfalso; [apply H2; by apply H | apply H1; by apply H].
Qed.

(** Deleting the highest position first leaves the lower ones in
    place. *)
Lemma without_positions_delete {A} (ks : list nat) i k (l : list A) :
  Forall (fun j => j < i + k) ks → k < length l →
  without_positions ks i (delete k l) =
  without_positions ((i + k) :: ks) i l.
Proof.
  revert i k. induction l as [|x l IH]; intros i k Hks Hk; simpl in *;
    [lia|].
  rewrite Forall_forall in Hks. destruct k as [|k]; simpl.
  - rewrite Nat.add_0_r. rewrite decide_True by (by left).
    rewrite !without_positions_id; [done| |].
    + intros j Hj Hin. apply elem_of_cons in Hin as [->|Hin]; [lia|].
      apply Hks in Hin. lia.
    + intros j Hj Hin. apply Hks in Hin. lia.
  - rewrite (IH (S i) k); [|apply Forall_forall; intros j Hj;
                            apply Hks in Hj; lia | lia].
    replace (S i + k) with (i + S k) by lia.
    destruct (decide (i ∈ ks)) as [Hi|Hi].
    + rewrite decide_True by (by right). done.
    + rewrite decide_False; [done|].
      intros Hin. apply elem_of_cons in Hin as [?|?]; [lia | done].
Qed.

Lemma del_loop_descending (ps : list Pulse) (ks : list nat) :
  StronglySorted (fun a b => b < a) ks →
  Forall (fun k => k < length ps) ks →
  del_loop ps (map Z.of_nat ks) = Ok (without_positions ks 0 ps).
Proof.
  revert ps. induction ks as [|k ks IH]; intros ps Hs Hlt; simpl.
  - by rewrite without_positions_id by (intros j _ Hj; by inversion Hj).
  - apply StronglySorted_inv in Hs as [Hs Hk].
    apply Forall_cons in Hlt as [Hkl Hlt].
    rewrite py_del_in_range by done. simpl.
    rewrite IH; [|done|].
    + f_equal. by rewrite (without_positions_delete ks 0 k).
    + rewrite length_delete by (apply lookup_lt_is_Some_2; lia).
      rewrite Forall_forall in Hk. apply Forall_forall. intros j Hj.
      apply Hk in Hj. lia.
Qed.

#[local] Instance Zge_total : Total (flip Z.le).
Proof. intros x y. unfold flip. lia. Qed.

#[local] Instance Zge_transitive : Transitive (flip Z.le).
Proof. intros x y z. unfold flip. lia. Qed.

Lemma descending_of_sorted (ks : list nat) :
  StronglySorted (flip Z.le) (map Z.of_nat ks) → NoDup ks →
  StronglySorted (fun a b => b < a) ks.
Proof.
  induction ks as [|k ks IH]; intros Hs Hnd; simpl in *; [constructor|].
  apply StronglySorted_inv in Hs as [Hs Hk].
  apply NoDup_cons in Hnd as [Hnk Hnd].
  apply SSorted_cons; [by apply IH|].
  apply Forall_forall. intros j Hj.
  rewrite Forall_forall in Hk.
  assert (Hle : flip Z.le (Z.of_nat k) (Z.of_nat j)).
  { apply Hk. apply list_elem_of_fmap. by exists j. }
  unfold flip in Hle. assert (j ≠ k) by congruence. lia.
Qed.

(** X12. [remove_pulse] with a list of distinct positions, all within the
    pulse list, deletes the pulses at exactly these positions and keeps
    the others in order, in whatever order the positions are given:
    deleting the highest first leaves the lower positions valid. *)
Theorem remove_pulse_indices (self : Processor) (ks : list nat)
    (L : option string) :
  NoDup ks →
  Forall (fun k => k < length (pulses self)) ks →
  remove_pulse self (IndicesList (map Z.of_nat ks)) L =
  Ok (set_pulses self (without_positions ks 0 (pulses self))).
Proof.
  intros Hnd Hlt. unfold remove_pulse, sort_reverse.
  pose proof (merge_sort_Permutation (flip Z.le) (map Z.of_nat ks)) as Hp.
  pose proof (StronglySorted_merge_sort (flip Z.le) (map Z.of_nat ks))
    as Hs.
  destruct (Permutation_map_inv _ _ Hp) as (ks' & Heq & Hperm).
  rewrite Heq in *.
  assert (Hnd' : NoDup ks') by (by rewrite <- Hperm).
  assert (Hlt' : Forall (fun k => k < length (pulses self)) ks')
    by (by rewrite <- Hperm).
  rewrite del_loop_descending; [|by apply descending_of_sorted | done].
  simpl. do 2 f_equal. apply without_positions_ext.
  intros j. by rewrite Hperm.
Qed.

Lemma del_loop_sublist (ps ps' : list Pulse) (ks : list Z) :
  del_loop ps ks = Ok ps' → ps' `sublist_of` ps.
Proof.
  revert ps. induction ks as [|k ks IH]; intros ps H; simpl in H.
  - by injection H as <-.
  - apply bind_Ok in H as (ps1 & H1 & H2). apply IH in H2.
    etrans; [exact H2|]. unfold py_del in H1.
    repeat match type of H1 with
           | context [if ?b then _ else _] => destruct b
           end; try discriminate; injection H1 as <-; apply sublist_delete.
Qed.

(** X13. [remove_pulse] never makes a processor fail validation: whether
    by indices or by label, what it leaves is a sublist of the pulse
    list, and a list that passed still passes. *)
Theorem remove_pulse_keeps_valid (self self' : Processor)
    (indices : IndicesArg) (L : option string) :
  remove_pulse self indices L = Ok self' →
  pulses self' `sublist_of` pulses self ∧
  (_is_pulses_valid self = Ok true → _is_pulses_valid self' = Ok true).
Proof.
  intros H.
  assert (Hsub : pulses self' `sublist_of` pulses self).
  { unfold remove_pulse in H. destruct indices as [|i|l].
    - injection H as <-. apply remove_label_loop_sublist.
    - apply bind_Ok in H as (ps & Hd & [= <-]).
      by apply del_loop_sublist in Hd.
    - apply bind_Ok in H as (ps & Hd & [= <-]).
      by apply del_loop_sublist in Hd. }
  split; [done|]. unfold _is_pulses_valid. rewrite !valid_loop_Ok.
  rewrite !Forall_forall. intros Hv p Hp. apply Hv.
  by eapply elem_of_sublist.
Qed.

(** ** The property [coeffs] *)

Lemma coeffs_setter_loop_spec (cl : list Coeff) (ps : list Pulse) i :
  (i + length cl ≤ length ps)%nat →
  ∃ ps', coeffs_setter_loop ps i cl = Ok ps' ∧
    length ps' = length ps ∧
    (∀ j c p, cl !! j = Some c → ps !! (i + j) = Some p →
       ps' !! (i + j) = Some (set_coeff p c)) ∧
    (∀ j, (j < i ∨ i + length cl ≤ j)%nat → ps' !! j = ps !! j).
Proof.
  revert ps i. induction cl as [|c cl IH]; intros ps i Hlen; simpl in *.
  - exists ps. split; [done|]. split; [done|]. split; [done|]. done.
  - destruct (lookup_lt_is_Some_2 ps i) as [p Hp]; [lia|]. rewrite Hp.
    destruct (IH (<[i:=set_coeff p c]> ps) (S i)) as
      (ps' & Hl & Hlen' & Hin & Hout); [rewrite length_insert; lia|].
    exists ps'. split; [done|]. rewrite length_insert in Hlen'.
    split; [done|]. split.
    + intros j c' p' Hc Hp'. destruct j as [|j]; simpl in Hc.
      * injection Hc as <-. rewrite Nat.add_0_r in *.
        rewrite Hout by lia. rewrite list_lookup_insert_eq by lia.
        congruence.
      * replace (i + S j) with (S i + j) in * by lia.
        apply (Hin j c' p' Hc). by rewrite list_lookup_insert_ne by lia.
    + intros j Hj. rewrite Hout by lia.
      by rewrite list_lookup_insert_ne by lia.
Qed.

(** X14. Assigning a matrix to [coeffs] gives its row [j] to pulse [j]
    as an array and leaves the other pulses, and every grid, as they
    were, when the matrix has at most as many rows as there are pulses;
    reading [coeffs] then gives the coefficients of all pulses. With more
    rows than pulses the assignment raises [IndexError]. *)
Theorem set_coeffs_rows (self : Processor) (rows : list (list Q)) :
  ((length rows ≤ length (pulses self))%nat →
   ∃ self', set_coeffs self (Arr2 rows) = Ok self' ∧
     length (pulses self') = length (pulses self) ∧
     (∀ j row, rows !! j = Some row →
        coeff <$> pulses self' !! j = Some (CArray row)) ∧
     (∀ j, (length rows ≤ j)%nat → pulses self' !! j = pulses self !! j) ∧
     map tlist (pulses self') = map tlist (pulses self) ∧
     (pulses self ≠ [] → coeffs self' = Some (map coeff (pulses self')))) ∧
  (length (pulses self) < length rows →
   set_coeffs self (Arr2 rows) =
   Raise (IndexError "list index out of range")).
Proof.
  split.
  - intros Hlen. unfold set_coeffs. simpl.
    destruct (coeffs_setter_loop_spec (map CArray rows) (pulses self) 0)
      as (ps' & Hl & Hlen' & Hin & Hout);
      [rewrite length_map; simpl; lia|].
    rewrite Hl. simpl. eexists. split; [reflexivity|]. simpl.
    rewrite length_map in Hout.
    split; [done|]. split; [|split; [|split]].
    + intros j row Hrow.
      destruct (lookup_lt_is_Some_2 (pulses self) j) as [p Hp].
      { apply lookup_lt_Some in Hrow. lia. }
      assert (Hj : ps' !! j = Some (set_coeff p (CArray row))).
      { apply (Hin j (CArray row) p); [|done].
        by rewrite list_lookup_fmap, Hrow. }
      by rewrite Hj.
    + intros j Hj. apply Hout. lia.
    + apply list_eq. intros j. rewrite !list_lookup_fmap.
      destruct (decide (j < length rows)) as [Hj|Hj].
      * destruct (lookup_lt_is_Some_2 rows j) as [row Hrow]; [done|].
        destruct (lookup_lt_is_Some_2 (pulses self) j) as [p Hp]; [lia|].
        assert (Hj' : ps' !! j = Some (set_coeff p (CArray row))).
        { apply (Hin j (CArray row) p); [|done].
          by rewrite list_lookup_fmap, Hrow. }
        by rewrite Hj', Hp.
      * rewrite Hout by lia. done.
    + intros Hne. unfold coeffs. simpl.
      destruct ps'; [|done]. by destruct (pulses self).
  - intros Hlen. unfold set_coeffs. simpl.
    assert (H : ∀ cl (ps : list Pulse) i,
               length ps < i + length cl → (i ≤ length ps)%nat →
               coeffs_setter_loop ps i cl =
               Raise (IndexError "list index out of range")).
    { induction cl as [|c cl IH]; intros ps i H1 H2; simpl in *; [lia|].
      destruct (ps !! i) as [p|] eqn:Hp; [|done].
      apply lookup_lt_Some in Hp.
      apply IH; rewrite length_insert; lia. }
    rewrite H; [done | rewrite length_map; simpl; lia | lia].
Qed.

(** ** More on [get_full_tlist] *)

Lemma StronglySorted_sublist {A} (R : relation A) (l1 l2 : list A) :
  l1 `sublist_of` l2 → StronglySorted R l2 → StronglySorted R l1.
Proof.
  induction 1 as [|x l1 l2 Hs IH|x l1 l2 Hs IH]; intros H2; [done| |].
  - apply StronglySorted_inv in H2 as [H2 Hx].
    apply SSorted_cons; [by apply IH|].
    rewrite Forall_forall in *. intros y Hy. apply Hx.
    by eapply elem_of_sublist.
  - apply StronglySorted_inv in H2 as [H2 _]. by apply IH.
Qed.

(** The gaps of what is kept exceed the tolerance, also the gap to a
    point [y0] at or before the point [y] the scan starts from. *)
Lemma kept_after_gaps tol y0 y a :
  (y0 <= y)%Q → StronglySorted Qlt (y :: a) →
  gaps_exceed tol (y0 :: kept_after tol y a).
Proof.
  revert y0 y. induction a as [|z a IH]; intros y0 y Hy Hs; [done|].
  apply StronglySorted_inv in Hs as [Hs Hyz].
  apply Forall_cons in Hyz as [Hyz _].
  rewrite kept_after_cons.
  destruct (Qgtb (z - y) tol) eqn:Hg.
  - apply Qgtb_true in Hg.
    change (gaps_exceed tol (y0 :: z :: kept_after tol z a)) with
      ((tol < z - y0)%Q ∧ gaps_exceed tol (z :: kept_after tol z a)).
    split; [lra|]. apply IH; [apply Qle_refl | done].
  - apply IH; [|done]. lra.
Qed.

(** X15. The merged grid is strictly increasing, and the gap between
    any two neighbours in it exceeds the tolerance. *)
Theorem get_full_tlist_gaps (self : Processor) (tol : Q) (r : list Q) :
  get_full_tlist self tol = Some r →
  StronglySorted Qlt r ∧ gaps_exceed tol r.
Proof.
  intros Hr. rewrite get_full_tlist_unfold in Hr.
  pose proof (np_unique_sorted
                (np_sort (np_hstack (omap tlist (pulses self))))) as Hs.
  fold (sorted_union self) in Hs.
  destruct (omap tlist (pulses self)); [done|]. injection Hr as <-.
  destruct (sorted_union self) as [|x a]; [done|]. split.
  - eapply StronglySorted_sublist; [|exact Hs].
    apply sublist_skip, kept_after_sublist.
  - apply kept_after_gaps; [apply Qle_refl | done].
Qed.

Lemma drop_eq_sublist x a : drop_eq x a `sublist_of` a.
Proof.
  revert x. induction a as [|y a IH]; intros x; simpl; [done|].
  destruct (Qeq_bool x y); [by apply sublist_cons | by apply sublist_skip].
Qed.

Lemma np_unique_elem_of a x : x ∈ np_unique a → x ∈ a.
Proof.
  unfold np_unique. intros H. apply (np_sort_elem_of a).
  destruct (np_sort a) as [|y a']; [done|].
  apply elem_of_cons in H as [->|H]; [by left|]. right.
  eapply elem_of_sublist; [exact H | apply drop_eq_sublist].
Qed.

Lemma StronglySorted_Qlt_NoDup (a : list Q) : StronglySorted Qlt a → NoDup a.
Proof.
  induction 1 as [|x a Hs IH Hx]; [constructor|].
  apply NoDup_cons. split; [|done]. intros Hin.
  rewrite Forall_forall in Hx. apply Hx in Hin. by apply Qlt_irrefl in Hin.
Qed.

(** In a strictly increasing array equal floats are the same entry. *)
Lemma StronglySorted_Qlt_Qeq (a : list Q) x y :
  StronglySorted Qlt a → x ∈ a → y ∈ a → (x == y)%Q → x = y.
Proof.
  induction 1 as [|z a Hs IH Hz]; intros Hx Hy He; [by inversion Hx|].
  rewrite Forall_forall in Hz.
  apply elem_of_cons in Hx as [->|Hx]; apply elem_of_cons in Hy as [->|Hy];
    try done.
  - apply Hz in Hy. rewrite He in Hy. by apply Qlt_irrefl in Hy.
  - apply Hz in Hx. rewrite He in Hx. by apply Qlt_irrefl in Hx.
  - by apply IH.
Qed.

Lemma np_unique_of_sorted (a g : list Q) :
  StronglySorted Qlt g → (∀ x, x ∈ a ↔ x ∈ g) → np_unique a = g.
Proof.
  intros Hg Ha.
  apply (StronglySorted_unique_strong Qlt);
    [|apply np_unique_sorted | done|].
  - intros x y _ _ H1 H2. exfalso.
    apply (Qlt_irrefl x). by eapply Qlt_trans.
  - apply NoDup_Permutation;
      [apply StronglySorted_Qlt_NoDup, np_unique_sorted
      |by apply StronglySorted_Qlt_NoDup|].
    intros x. split.
    + intros Hx. apply Ha. by apply np_unique_elem_of.
    + intros Hx.
      assert (He : Exists (Qeq x) (np_unique a)).
      { apply np_unique_Exists. apply Exists_exists. exists x.
        split; [by apply Ha | reflexivity]. }
      apply Exists_exists in He as (y & Hy & He).
      assert (Hyg : y ∈ g) by (by apply Ha, np_unique_elem_of).
      by rewrite (StronglySorted_Qlt_Qeq g x y Hg Hx Hyg He).
Qed.

Lemma kept_after_all tol y a :
  gaps_exceed tol (y :: a) → kept_after tol y a = a.
Proof.
  revert y. induction a as [|z a IH]; intros y Hg; [done|].
  destruct Hg as [Hyz Hg]. rewrite kept_after_cons.
  apply Qgtb_true in Hyz. rewrite Hyz. f_equal. by apply IH.
Qed.

Lemma omap_tlist_set (ps : list Pulse) (g : list Q) :
  omap tlist (map (fun pulse => set_tlist pulse (Some g)) ps) =
  map (fun _ => g) ps.
Proof. induction ps as [|p l IH]; simpl; [done|]. by f_equal. Qed.

(** X16. Once [set_all_tlist] has given every pulse the same grid [g],
    strictly increasing with gaps above the tolerance, the merged grid is
    [g] itself, however many pulses share it. *)
Theorem get_full_tlist_shared_grid (self : Processor) (g : list Q)
    (tol : Q) :
  pulses self ≠ [] →
  StronglySorted Qlt g → gaps_exceed tol g →
  get_full_tlist (set_all_tlist self (Some g)) tol = Some g.
Proof.
  intros Hne Hs Hg. rewrite get_full_tlist_unfold. unfold sorted_union.
  simpl.
  rewrite omap_tlist_set.
  destruct (pulses self) as [|p l] eqn:Hp; [done|].
  simpl map. cbv match.
  rewrite (np_unique_of_sorted _ g Hs).
  - destruct g as [|x a]; [done|]. by rewrite kept_after_all.
  - intros x. rewrite np_sort_elem_of. unfold np_hstack. simpl.
    rewrite elem_of_app. split; [|by left].
    intros [H|H]; [done|]. apply list_elem_of_In in H.
    apply in_concat in H as (l' & Hl' & Hx).
    apply in_map_iff in Hl' as (? & <- & _). by apply list_elem_of_In.
Qed.

(** ** [run_analytically] without grids or without coefficients *)

Lemma len_opt_None_msg {A} :
  len_opt (None : option (list A)) =
  Raise (TypeError "object of type 'NoneType' has no len()").
Proof. reflexivity. Qed.

(** X17. When no pulse has a time grid, as right after [add_control]
    or on a processor without pulses, [run_analytically] returns no
    propagators: it raises the validator's error, or, when validation
    passes, the [TypeError] of taking [len] of the grid [None]. *)
Theorem run_analytically_no_grid (self : Processor)
    (init_state : option Qobj) :
  Forall (fun pulse => tlist pulse = None) (pulses self) →
  raises (run_analytically self init_state) ∧
  (_is_pulses_valid self = Ok true →
   run_analytically self init_state =
   Raise (TypeError "object of type 'NoneType' has no len()")).
Proof.
  intros Hnone.
  assert (Htl : get_full_tlist self default_tol = None).
  { rewrite get_full_tlist_unfold.
    apply omap_tlist_nil in Hnone. by rewrite Hnone. }
  assert (Hv : _is_pulses_valid self = Ok true →
               run_analytically self init_state =
               Raise (TypeError "object of type 'NoneType' has no len()")).
  { intros Hv. unfold run_analytically.
    destruct (pulses self) as [|p l] eqn:Hp.
    - unfold get_full_coeffs. rewrite Hv, Hp. simpl. by rewrite Htl.
    - rewrite get_full_coeffs_valid; [|done | by rewrite Hp].
      simpl. rewrite Htl, Hp. simpl.
      assert (Hrow : full_coeffs_row self None p =
                Raise (TypeError "object of type 'NoneType' has no len()")).
      { apply Forall_cons in Hnone as [Hpn _].
        apply valid_loop_Ok in Hv. rewrite Hp in Hv.
        apply Forall_cons in Hv as [Hwf _].
        unfold full_coeffs_row. rewrite Hpn.
        destruct Hwf as [[Hc|[b Hc]]|(tl & n & Ht & _)];
          [by rewrite Hc | by rewrite Hc | congruence]. }
      by rewrite Hrow. }
  split; [|done].
  destruct (valid_Ok_or_Raise self) as [Hok|[e He]].
  - eexists. by apply Hv.
  - exists e. unfold run_analytically, get_full_coeffs. by rewrite He.
Qed.

Lemma full_coeffs_row_grid_only self ft (pulse : Pulse) g :
  coeff pulse = CNone →
  full_coeffs_row self ft (set_tlist pulse (Some g)) =
  Raise (ValueError msg_unsupported_coeff).
Proof. unfold full_coeffs_row. simpl. by intros ->. Qed.

(** X18. Pulses that have a grid but no coefficient, as after
    [add_control] and [set_all_tlist], pass validation, yet cannot be
    resampled: [get_full_coeffs] and with it [run_analytically] raise the
    error about the coefficient type. *)
Theorem grid_without_coeff (self : Processor) (g : list Q)
    (full_tlist : option (list Q)) (init_state : option Qobj) :
  pulses self ≠ [] →
  Forall (fun pulse => coeff pulse = CNone) (pulses self) →
  let self' := set_all_tlist self (Some g) in
  _is_pulses_valid self' = Ok true ∧
  get_full_coeffs self' full_tlist =
    Raise (ValueError msg_unsupported_coeff) ∧
  run_analytically self' init_state =
    Raise (ValueError msg_unsupported_coeff).
Proof.
  intros Hne Hc self'.
  assert (Hv : _is_pulses_valid self' = Ok true).
  { apply valid_loop_Ok. simpl. apply Forall_fmap.
    eapply Forall_impl; [exact Hc|]. intros p Hp. left. by left. }
  assert (Hg : ∀ ft, get_full_coeffs self' ft =
                     Raise (ValueError msg_unsupported_coeff)).
  { intros ft. rewrite get_full_coeffs_valid; [|done|].
    - simpl pulses. destruct (pulses self) as [|p l]; [done|].
      apply Forall_cons in Hc as [Hp _]. cbn [map mapM].
      by rewrite full_coeffs_row_grid_only.
    - simpl. by destruct (pulses self). }
  split; [done|]. split; [apply Hg|].
  unfold run_analytically. by rewrite Hg.
Qed.

(** ** [run_state], [add_noise], [find_pulse] *)

(** X19. The old parameter [states] stands in for [init_state]: a call
    with [states] only does what the call with the same state as
    [init_state] does, after one more warning, the deprecation; when both
    are given, [init_state] is the state used. *)
Theorem run_state_states_fallback (self : Processor) (s s' : Qobj)
    (analytical noisy : bool) (solver : string)
    (kwargs : list (string * KwVal)) :
  run_state self None analytical (Some s) noisy solver kwargs =
    (DeprecationWarning
       "states will be deprecated and replaced by init_state" ::
     (run_state self (Some s) analytical None noisy solver kwargs).1,
     (run_state self (Some s) analytical None noisy solver kwargs).2) ∧
  (run_state self (Some s) analytical (Some s') noisy solver kwargs).2 =
  (run_state self (Some s) analytical None noisy solver kwargs).2.
Proof.
  unfold run_state. split.
  - destruct analytical; simpl.
    + by destruct (negb (is_empty kwargs) || negb (is_empty (noise self))).
    + by destruct (has_key "H" kwargs || has_key "tlist" kwargs).
  - destruct analytical; simpl.
    + by destruct (negb (is_empty kwargs) || negb (is_empty (noise self))).
    + by destruct (has_key "H" kwargs || has_key "tlist" kwargs).
Qed.

(** X20. [add_noise] appends the noise object and changes nothing else;
    from then on [run_state] with [analytical=True] raises for every
    state, solver and keyword arguments. An argument that is no [Noise]
    raises [TypeError]. *)
Theorem add_noise_blocks_analytical (self : Processor) (n : Noise) :
  add_noise self NotNoise = Raise (TypeError "Input is not a Noise object.") ∧
  ∃ self', add_noise self (IsNoise n) = Ok self' ∧
    noise self' = noise self ++ [n] ∧
    pulses self' = pulses self ∧
    ∀ init_state states noisy solver kwargs,
      raises (run_state self' init_state true states noisy solver kwargs).2.
Proof.
  split; [done|]. eexists. split; [reflexivity|]. split; [done|].
  split; [done|]. intros init_state states noisy solver kwargs.
  unfold run_state, raises. simpl.
  assert (Hn : negb (is_empty (noise self ++ [n])) = true)
    by (by destruct (noise self)).
  rewrite Hn, orb_true_r.
  destruct init_state, states; simpl; eauto.
Qed.

Lemma py_getitem_nat {A} (l : list A) (k : nat) x :
  l !! k = Some x → py_getitem l (Z.of_nat k) = Ok x.
Proof.
  intros Hk. unfold py_getitem.
  assert (H : ((0 <=? Z.of_nat k) && (Z.of_nat k <? Z.of_nat (length l)))%Z
              = true).
  { apply lookup_lt_Some in Hk.
    apply andb_true_iff. split; [apply Z.leb_le | apply Z.ltb_lt]; lia. }
  rewrite H, Nat2Z.id. by apply getitem_Ok.
Qed.

Lemma py_getitem_last {A} (l : list A) x :
  py_getitem (l ++ [x]) (-1) = Ok x.
Proof.
  unfold py_getitem. rewrite length_app. simpl length.
  assert (H0 : ((0 <=? -1) && (-1 <? Z.of_nat (length l + 1)))%Z = false)
    by done.
  rewrite H0.
  assert (H1 : ((- Z.of_nat (length l + 1) <=? -1) && (-1 <? 0))%Z = true).
  { apply andb_true_iff. split; [apply Z.leb_le; lia | done]. }
  rewrite H1.
  replace (Z.to_nat (-1 + Z.of_nat (length l + 1))) with (length l) by lia.
  apply getitem_Ok. rewrite lookup_app_r by lia. by rewrite Nat.sub_diag.
Qed.

(** X21. A pulse added by [add_control] is found by [find_pulse] at the
    position after the former pulses, and at [-1]; the pulses before it
    are found where they were. A name is looked up through [pulse_dict];
    a name it does not hold raises the [KeyError] that names it, and a
    processor without [pulse_dict] raises [AttributeError]. *)
Theorem find_pulse_after_add_control (self : Processor) (q : Qobj)
    (T : list Z) (lbl : option string) (d : option (gmap string Z)) :
  isherm q = true →
  let new := mkPulse q T None CNone (Some (proc_spline_kind self)) lbl in
  ∃ self',
    add_control self (IsQobj q) (TargetsList T) false lbl = Ok self' ∧
    find_pulse self' d (NameInt (Z.of_nat (length (pulses self)))) =
      Found new ∧
    find_pulse self' d (NameInt (-1)) = Found new ∧
    (∀ k pulse, pulses self !! k = Some pulse →
       find_pulse self' d (NameInt (Z.of_nat k)) = Found pulse) ∧
    (∀ d' name k, d' !! name = Some (Z.of_nat (length (pulses self))) →
       k = name → find_pulse self' (Some d') (NameStr k) = Found new) ∧
    (∀ d' name, d' !! name = None →
       find_pulse self' (Some d') (NameStr name) =
       RaisedKeyError (msg_undefined name)) ∧
    (∀ name, find_pulse self' None (NameStr name) =
       Raised (AttributeError "object has no attribute 'pulse_dict'")).
Proof.
  intros Hh new. unfold add_control. rewrite Hh. simpl.
  eexists. split; [reflexivity|].
  assert (Hlast : (pulses self ++ [new]) !! length (pulses self) = Some new).
  { rewrite lookup_app_r by lia. by rewrite Nat.sub_diag. }
  split; [|split; [|split; [|split; [|split]]]].
  - unfold find_pulse. simpl. by rewrite (py_getitem_nat _ _ new).
  - unfold find_pulse. simpl. by rewrite py_getitem_last.
  - intros k pulse Hk. unfold find_pulse. simpl.
    rewrite (py_getitem_nat _ _ pulse); [done|].
    by apply lookup_app_l_Some.
  - intros d' name k Hd ->. unfold find_pulse. simpl. rewrite Hd.
    by rewrite (py_getitem_nat _ _ new).
  - intros d' name Hd. unfold find_pulse. by rewrite Hd.
  - done.
Qed.

(** ** [save_coeff], [read_coeff] *)

Lemma filter_all {A} (P : A → Prop) `{∀ x, Decision (P x)} (l : list A) :
  Forall P l → filter P l = l.
Proof.
  induction 1 as [|x l Hx Hl IH]; [done|].
  rewrite filter_cons_True by done. by rewrite IH.
Qed.

Lemma np_loadtxt_matrix (fs : gmap string FileText) f (text : FileText) n :
  fs !! f = Some text →
  (2 ≤ length text)%nat → (2 ≤ n)%nat → Forall (fun l => length l = n) text →
  np_loadtxt fs f = Ok (Arr2 (map (map parse_float) text)).
Proof.
  intros Hf Hlen Hn Hall. unfold np_loadtxt, FileText in *. rewrite Hf.
  rewrite filter_all.
  2:{ eapply Forall_impl; [exact Hall|]. intros l Hl ->. simpl in Hl. lia. }
  destruct text as [|l0 [|l1 rest]]; simpl in Hlen; try lia.
  pose proof Hall as Hall'.
  apply Forall_cons in Hall' as [H0 Hall'].
  assert (Hfa : forallb (fun l => Nat.eqb (length l) (length l0))
                        (l0 :: l1 :: rest) = true).
  { apply forallb_forall. intros l Hl. apply Nat.eqb_eq.
    rewrite Forall_forall in Hall. rewrite H0. apply Hall.
    by apply list_elem_of_In. }
  rewrite Hfa.
  destruct l0 as [|x [|y l0]]; simpl in H0; try lia.
  reflexivity.
Qed.

Lemma np_loadtxt_single_line (fs : gmap string FileText) f (line : list Z) :
  fs !! f = Some [line] → (2 ≤ length line)%nat →
  np_loadtxt fs f = Ok (Arr1 (map parse_float line)).
Proof.
  intros Hf Hlen. unfold np_loadtxt, FileText in *. rewrite Hf.
  destruct line as [|x [|y line]]; simpl in Hlen; try lia.
  rewrite filter_cons_True by done. rewrite filter_nil.
  cbn [forallb]. rewrite Nat.eqb_refl. reflexivity.
Qed.

Lemma transpose_rect (rows : list (list Q)) (r0 : list Q) rest :
  rows = r0 :: rest →
  transpose rows =
  map (fun j => map (fun row => nth j row 0%Q) rows) (seq 0 (length r0)).
Proof. by intros ->. Qed.

Lemma map_nth_seq (row : list Q) (g : Q → Q) :
  map (fun j => g (nth j row 0%Q)) (seq 0 (length row)) = map g row.
Proof.
  apply list_eq. intros j. rewrite !list_lookup_fmap.
  destruct (decide (j < length row)) as [Hj|Hj].
  - rewrite lookup_seq_lt by done. simpl.
    destruct (lookup_lt_is_Some_2 row j Hj) as [x Hx].
    by rewrite Hx, (nth_lookup_Some _ _ _ _ Hx).
  - rewrite lookup_seq_ge by lia. by rewrite lookup_ge_None_2 by lia.
Qed.

Lemma transpose_map_transpose (g : Q → Q) (rows : list (list Q)) C :
  rows ≠ [] → (1 ≤ C)%nat → Forall (fun row => length row = C) rows →
  transpose (map (map g) (transpose rows)) = map (map g) rows.
Proof.
  intros Hne HC Hall. destruct rows as [|r0 rest] eqn:Hrows; [done|].
  rewrite <- Hrows in *.
  assert (H0 : length r0 = C).
  { rewrite Forall_forall in Hall. apply Hall. rewrite Hrows. by left. }
  rewrite (transpose_rect rows r0 rest Hrows). rewrite H0.
  destruct C as [|C]; [lia|]. simpl seq. simpl map at 2. simpl map at 1.
  unfold transpose at 1. rewrite !length_map.
  apply list_eq. intros m. rewrite !list_lookup_fmap.
  destruct (decide (m < length rows)) as [Hm|Hm].
  - rewrite lookup_seq_lt by done. simpl.
    destruct (lookup_lt_is_Some_2 rows m Hm) as [row Hrow].
    rewrite Hrow. simpl. f_equal.
    assert (Hlen : length row = S C).
    { rewrite Forall_forall in Hall. apply Hall.
      by eapply list_elem_of_lookup_2. }
    assert (Hn : ∀ j, nth m (map g (map (fun row0 => nth j row0 0%Q) rows))
                          0%Q = g (nth j row 0%Q)).
    { intros j. apply nth_lookup_Some.
      by rewrite !list_lookup_fmap, Hrow. }
    rewrite Hn. rewrite <- (map_nth_seq row g), Hlen. simpl. f_equal.
    rewrite <- !seq_shift, !map_map. apply map_ext. intros j. apply Hn.
  - rewrite lookup_seq_ge by lia. by rewrite lookup_ge_None_2 by lia.
Qed.

Lemma zip_cons_heads (g : Q → Q) (tl : list Q) (T : list (list Q)) :
  length tl = length T →
  map (fun r => nth 0 r 0%Q) (map (map g) (zip_with cons tl T)) = map g tl.
Proof.
  revert T. induction tl as [|t tl IH]; intros [|c T] H; simpl in *;
    try done. f_equal. apply IH. lia.
Qed.

Lemma zip_cons_tails (g : Q → Q) (tl : list Q) (T : list (list Q)) :
  length tl = length T →
  map (drop 1) (map (map g) (zip_with cons tl T)) = map (map g) T.
Proof.
  revert T. induction tl as [|t tl IH]; intros [|c T] H; simpl in *;
    try done. rewrite drop_0. f_equal. apply IH. lia.
Qed.

Lemma length_transpose (rows : list (list Q)) C :
  rows ≠ [] → Forall (fun row => length row = C) rows →
  length (transpose rows) = C.
Proof.
  intros Hne Hall. destruct rows as [|r0 rest]; [done|].
  apply Forall_cons in Hall as [H0 _]. unfold transpose.
  by rewrite length_map, length_seq.
Qed.


Lemma read_back_reread (a : list Q) : read_back (map reread a) a.
Proof.
  induction a as [|x a IH]; constructor; [|done].
  exists (fmt_1_16f x). split; [apply fmt_1_16f_close | reflexivity].
Qed.

Lemma transpose_columns (rows : list (list Q)) :
  Forall (fun c => length c = length rows) (transpose rows).
Proof.
  destruct rows as [|r0 rest]; [constructor|]. unfold transpose.
  apply Forall_forall. intros c Hc. apply list_elem_of_fmap in Hc as (j & -> & _).
  by rewrite length_map.
Qed.

Lemma save_coeff_text (self : Processor) f fs rows tl :
  get_full_coeffs self None = Ok (Arr2 rows) →
  get_full_tlist self default_tol = Some tl →
  (1 ≤ length tl)%nat →
  Forall (fun row => length row = length tl) rows →
  rows ≠ [] ∧ length rows = length (pulses self) ∧
  save_coeff self f true fs =
  Ok (<[f := map (map fmt_1_16f) (zip_with cons tl (transpose rows))]> fs).
Proof.
  intros Hc Ht Hlen Hall.
  assert (Hrows : rows ≠ [] ∧ length rows = length (pulses self) ∧
                  _is_pulses_valid self = Ok true).
  { unfold get_full_coeffs in Hc.
    destruct (valid_Ok_or_Raise self) as [Hv|[e He]];
      [|by rewrite He in Hc].
    rewrite Hv in Hc. simpl in Hc.
    destruct (pulses self) as [|p ps] eqn:Hps; [done|].
    apply bind_Ok in Hc as (cl & Hcl & [= ->]).
    apply mapM_Ok_Forall2 in Hcl. apply Forall2_length in Hcl.
    split; [|done]. intros ->. done. }
  destruct Hrows as (Hne & Hl & Hv). split; [done|]. split; [done|].
  unfold save_coeff. rewrite Hv, Hc, Ht. simpl.
  rewrite (length_transpose rows (length tl)) by done.
  by rewrite Nat.eqb_refl.
Qed.

(** X22. Saving the coefficients with the time column and reading the
    file back into the same processor, when [get_full_coeffs] returns a
    matrix on a grid of at least two points: both calls return, every
    pulse gets one shared grid and its own row of the matrix as an array,
    and every number read is the double nearest to the decimal written
    for it, which is within half of 1e-16 of the number saved. *)
Theorem save_read_round_trip (self : Processor) f fs rows tl :
  get_full_coeffs self None = Ok (Arr2 rows) →
  get_full_tlist self default_tol = Some tl →
  (2 ≤ length tl)%nat →
  Forall (fun row => length row = length tl) rows →
  ∃ fs' self' out tl' rows',
    save_coeff self f true fs = Ok fs' ∧
    read_coeff self f true fs' = Ok (self', out) ∧
    read_back tl' tl ∧ Forall2 read_back rows' rows ∧
    length rows' = length (pulses self) ∧
    pulses self' =
    zip_with (fun p row => set_coeff (set_tlist p (Some tl')) (CArray row))
             (pulses self) rows'.
Proof.
  intros Hc Ht Hlen Hall.
  destruct (save_coeff_text self f fs rows tl Hc Ht) as (Hne & Hl & Hs);
    [lia|done|].
  set (T := transpose rows) in *.
  assert (HT : length tl = length T).
  { symmetry. by apply length_transpose. }
  set (text := map (map fmt_1_16f) (zip_with cons tl T)) in *.
  assert (Hload : np_loadtxt (<[f:=text]> fs) f =
                  Ok (Arr2 (map (map parse_float) text))).
  { apply (np_loadtxt_matrix _ _ _ (S (length rows))).
    - by rewrite lookup_insert_eq.
    - unfold text. rewrite length_map, length_zip_with. lia.
    - destruct rows; [done|simpl; lia].
    - unfold text. apply Forall_forall. intros l Hin.
      apply list_elem_of_fmap in Hin as (l' & -> & Hin).
      rewrite length_map.
      apply elem_of_lookup_zip_with in Hin as (i & t & c & -> & _ & Hcol).
      simpl. f_equal.
      pose proof (transpose_columns rows) as Hcols.
      rewrite Forall_forall in Hcols. apply Hcols.
      by eapply list_elem_of_lookup_2. }
  set (rows' := map (map reread) rows).
  set (tl' := map reread tl).
  destruct (coeffs_setter_loop_spec (map CArray rows')
              (map (fun pulse => set_tlist pulse (Some tl')) (pulses self)) 0)
    as (ps' & Hloop & Hlen' & Hin & _).
  { unfold rows'. rewrite !length_map. simpl. lia. }
  eexists _, (set_pulses (set_all_tlist self (Some tl')) ps'), _, tl', rows'.
  split; [exact Hs|].
  split.
  { assert (Hmm : map (map parse_float) text =
                  map (map reread) (zip_with cons tl T)).
    { unfold text. rewrite map_map. apply map_ext. intros l.
      by rewrite map_map. }
    unfold read_coeff. rewrite Hload, Hmm. simpl.
    rewrite zip_cons_heads, zip_cons_tails by done.
    unfold T. rewrite (transpose_map_transpose reread rows (length tl));
      [|done|lia|done].
    fold tl' rows'. unfold set_coeffs. simpl.
    change (pulses (set_all_tlist self (Some tl'))) with
      (map (fun pulse => set_tlist pulse (Some tl')) (pulses self)).
    rewrite Hloop. simpl. reflexivity. }
  split; [apply read_back_reread|].
  split.
  { unfold rows'. clear. induction rows; constructor;
      [apply read_back_reread|done]. }
  split; [unfold rows'; by rewrite length_map|].
  simpl. apply list_eq. intros j.
  rewrite length_map in Hlen'.
  destruct (decide (j < length (pulses self))) as [Hj|Hj].
  - destruct (lookup_lt_is_Some_2 (pulses self) j Hj) as [p Hp].
    destruct (lookup_lt_is_Some_2 rows' j) as [row Hrow].
    { unfold rows'. rewrite length_map. lia. }
    transitivity (Some (set_coeff (set_tlist p (Some tl')) (CArray row))).
    + apply (Hin j (CArray row) (set_tlist p (Some tl'))).
      * by rewrite list_lookup_fmap, Hrow.
      * change (0 + j) with j. by rewrite list_lookup_fmap, Hp.
    + symmetry. apply lookup_zip_with_Some. by exists p, row.
  - rewrite !lookup_ge_None_2; [done| |lia].
    rewrite length_zip_with. lia.
Qed.

(** X23. When [get_full_coeffs] returns a matrix on a merged grid of a
    single point, as it does for pulses with boolean coefficients, the
    file saved with the time column has one line, [np.loadtxt] returns a
    vector, and reading with the time column raises [IndexError]: the
    file is saved but cannot be read back. *)
Theorem save_read_single_point (self : Processor) f fs rows tl :
  get_full_coeffs self None = Ok (Arr2 rows) →
  get_full_tlist self default_tol = Some tl →
  length tl = 1%nat →
  Forall (fun row => length row = length tl) rows →
  ∃ fs' msg, save_coeff self f true fs = Ok fs' ∧
    read_coeff self f true fs' = Raise (IndexError msg).
Proof.
  intros Hc Ht Hlen Hall.
  destruct (save_coeff_text self f fs rows tl Hc Ht) as (Hne & Hl & Hs);
    [lia|done|].
  eexists _, _. split; [exact Hs|].
  pose proof (length_transpose rows (length tl) Hne Hall) as HT.
  pose proof (transpose_columns rows) as Hcols.
  destruct tl as [|t [|]]; try done.
  destruct (transpose rows) as [|c [|]]; try done.
  apply Forall_cons in Hcols as [Hcol _].
  unfold read_coeff.
  rewrite (np_loadtxt_single_line _ _ (map fmt_1_16f (t :: c))).
  - done.
  - by rewrite lookup_insert_eq.
  - simpl. rewrite length_map, Hcol. destruct rows; [done|simpl; lia].
Qed.

Lemma coeffs_setter_loop_raises (cl : list Coeff) (ps : list Pulse) i :
  length ps < i + length cl → (i ≤ length ps)%nat →
  coeffs_setter_loop ps i cl = Raise (IndexError "list index out of range").
Proof.
  revert ps i. induction cl as [|c cl IH]; intros ps i H1 H2; simpl in *;
    [lia|].
  destruct (ps !! i) as [p|] eqn:Hp; [|done].
  apply lookup_lt_Some in Hp. apply IH; rewrite length_insert; lia.
Qed.

Lemma save_coeff_text_no_time (self : Processor) f fs rows :
  get_full_coeffs self None = Ok (Arr2 rows) →
  rows ≠ [] ∧ length rows = length (pulses self) ∧
  save_coeff self f false fs =
  Ok (<[f := map (map fmt_1_16f) (transpose rows)]> fs).
Proof.
  intros Hc.
  assert (Hrows : rows ≠ [] ∧ length rows = length (pulses self) ∧
                  _is_pulses_valid self = Ok true).
  { unfold get_full_coeffs in Hc.
    destruct (valid_Ok_or_Raise self) as [Hv|[e He]];
      [|by rewrite He in Hc].
    rewrite Hv in Hc. simpl in Hc.
    destruct (pulses self) as [|p ps] eqn:Hps; [done|].
    apply bind_Ok in Hc as (cl & Hcl & [= ->]).
    apply mapM_Ok_Forall2 in Hcl. apply Forall2_length in Hcl.
    split; [|done]. intros ->. done. }
  destruct Hrows as (Hne & Hl & Hv). split; [done|]. split; [done|].
  unfold save_coeff. by rewrite Hv, Hc.
Qed.

(** X24. Saving without the time column and reading the file back into
    the same processor, when [get_full_coeffs] returns a matrix with at
    least two rows of at least two entries: both calls return, every
    pulse keeps its grid and gets its own row of the matrix as an array,
    every number read being the double nearest to the decimal written
    for it, which is within half of 1e-16 of the number saved. *)
Theorem save_read_no_time (self : Processor) f fs rows (m : nat) :
  get_full_coeffs self None = Ok (Arr2 rows) →
  (2 ≤ length (pulses self))%nat → (2 ≤ m)%nat →
  Forall (fun row => length row = m) rows →
  ∃ fs' self' out rows',
    save_coeff self f false fs = Ok fs' ∧
    read_coeff self f false fs' = Ok (self', out) ∧
    Forall2 read_back rows' rows ∧
    length rows' = length (pulses self) ∧
    pulses self' =
    zip_with (fun p row => set_coeff p (CArray row)) (pulses self) rows'.
Proof.
  intros Hc Hn Hm Hall.
  destruct (save_coeff_text_no_time self f fs rows Hc) as (Hne & Hl & Hs).
  set (T := transpose rows) in *.
  assert (HT : length T = m) by by apply length_transpose.
  set (text := map (map fmt_1_16f) T) in *.
  assert (Hload : np_loadtxt (<[f:=text]> fs) f =
                  Ok (Arr2 (map (map parse_float) text))).
  { apply (np_loadtxt_matrix _ _ _ (length rows)).
    - by rewrite lookup_insert_eq.
    - unfold text. rewrite length_map. lia.
    - lia.
    - unfold text. apply Forall_forall. intros l Hin.
      apply list_elem_of_fmap in Hin as (l' & -> & Hin).
      rewrite length_map.
      pose proof (transpose_columns rows) as Hcols.
      rewrite Forall_forall in Hcols. by apply Hcols. }
  set (rows' := map (map reread) rows).
  destruct (coeffs_setter_loop_spec (map CArray rows') (pulses self) 0)
    as (ps' & Hloop & Hlen' & Hin & _).
  { unfold rows'. rewrite !length_map. simpl. lia. }
  eexists _, (set_pulses self ps'), _, rows'.
  split; [exact Hs|].
  split.
  { assert (Hmm : map (map parse_float) text = map (map reread) T).
    { unfold text. rewrite map_map. apply map_ext. intros l.
      by rewrite map_map. }
    unfold read_coeff. rewrite Hload, Hmm. simpl.
    unfold T. rewrite (transpose_map_transpose reread rows m);
      [|done|lia|done].
    fold rows'. unfold set_coeffs. simpl.
    rewrite Hloop. simpl. reflexivity. }
  split.
  { unfold rows'. clear. induction rows; constructor;
      [apply read_back_reread|done]. }
  split; [unfold rows'; by rewrite length_map|].
  simpl. apply list_eq. intros j.
  destruct (decide (j < length (pulses self))) as [Hj|Hj].
  - destruct (lookup_lt_is_Some_2 (pulses self) j Hj) as [p Hp].
    destruct (lookup_lt_is_Some_2 rows' j) as [row Hrow].
    { unfold rows'. rewrite length_map. lia. }
    transitivity (Some (set_coeff p (CArray row))).
    + apply (Hin j (CArray row) p).
      * by rewrite list_lookup_fmap, Hrow.
      * done.
    + symmetry. apply lookup_zip_with_Some. by exists p, row.
  - rewrite !lookup_ge_None_2; [done| |lia].
    rewrite length_zip_with. lia.
Qed.

Lemma np_loadtxt_column (fs : gmap string FileText) f (text : FileText) :
  fs !! f = Some text → (2 ≤ length text)%nat →
  Forall (fun l => length l = 1%nat) text →
  np_loadtxt fs f =
  Ok (Arr1 (map (fun r => nth 0 r 0%Q) (map (map parse_float) text))).
Proof.
  intros Hf Hlen Hall. unfold np_loadtxt, FileText in *. rewrite Hf.
  rewrite filter_all.
  2:{ eapply Forall_impl; [exact Hall|]. intros l Hl ->. simpl in Hl. lia. }
  destruct text as [|l0 [|l1 rest]]; simpl in Hlen; try lia.
  pose proof Hall as Hall'.
  apply Forall_cons in Hall' as [H0 Hall'].
  assert (Hfb : forallb (fun l => Nat.eqb (length l) (length l0))
                        (l0 :: l1 :: rest) = true).
  { apply forallb_forall. intros l Hl. apply Nat.eqb_eq.
    rewrite Forall_forall in Hall. rewrite H0. apply Hall.
    by apply list_elem_of_In. }
  rewrite Hfb. rewrite H0.
  destruct l0 as [|x0 [|]]; try done.
Qed.

(** X25. With a single pulse the file saved without the time column has
    one column, [np.loadtxt] returns a vector, and assigning its floats
    to [coeffs] runs past the only pulse: reading raises [IndexError]. *)
Theorem save_read_no_time_single_pulse (self : Processor) f fs rows
    (m : nat) :
  get_full_coeffs self None = Ok (Arr2 rows) →
  length (pulses self) = 1%nat → (2 ≤ m)%nat →
  Forall (fun row => length row = m) rows →
  ∃ fs', save_coeff self f false fs = Ok fs' ∧
    read_coeff self f false fs' =
    Raise (IndexError "list index out of range").
Proof.
  intros Hc Hn Hm Hall.
  destruct (save_coeff_text_no_time self f fs rows Hc) as (Hne & Hl & Hs).
  eexists. split; [exact Hs|].
  pose proof (length_transpose rows m Hne Hall) as HT.
  pose proof (transpose_columns rows) as Hcols.
  unfold read_coeff.
  rewrite (np_loadtxt_column _ _ (map (map fmt_1_16f) (transpose rows))).
  - simpl. unfold set_coeffs. simpl.
    rewrite coeffs_setter_loop_raises; [done| |lia].
    rewrite !length_map. lia.
  - by rewrite lookup_insert_eq.
  - rewrite length_map. lia.
  - apply Forall_forall. intros l Hin.
    apply list_elem_of_fmap in Hin as (l' & -> & Hin).
    rewrite length_map. rewrite Forall_forall in Hcols.
    rewrite (Hcols l' Hin). lia.
Qed.

End MoreTheory.

Section MoreStoreTheory.
Context `{QS : QobjSig} `{NL : !NoiseLib}.

(** What the call has done before [noisy_pulses += [self.drift]]: the
    list returned and its entries are objects that did not exist before,
    and the objects that did are as they were. *)
Lemma get_noisy_pulses_parts (self : Processor_ loc loc)
    (device_noise drift_ : bool) (h h' : gmap loc Obj) (out : loc)
    (items : list loc) :
  frame_respecting NL →
  h !! pulses self = Some (OList items) →
  Forall (fun l => is_Some (h !! l)) items →
  get_noisy_pulses self device_noise drift_ h = (h', out) →
  ∃ h2 xs,
    h2 !! out = Some (OList xs) ∧ h !! out = None ∧
    (∀ x, x ∈ xs → h !! x = None) ∧
    (∀ l o, h !! l = Some o → h2 !! l = Some o) ∧
    h' = (if drift_ then <[out := OList (xs ++ [drift self])]> h2 else h2).
Proof.
  intros Hframe Hl Hit Hg. unfold get_noisy_pulses in Hg.
  destruct (deepcopy (pulses self) h) as [h1 pl] eqn:Hd.
  destruct (process_noise pl (noise self) (dims self) (t1 self) (t2 self)
                          device_noise h1) as [h2 np] eqn:Hp.
  apply pair_equal_spec in Hg as [<- <-].
  destruct (deepcopy_fresh h (pulses self) items h1 pl Hl Hit Hd) as
    (Hsub & Hpl & items' & Hpl1 & Hnew).
  destruct (Hframe _ _ _ _ _ _ _ _ _ _ Hpl1 Hp) as
    (Hkeep & (xs & Hxs & Hxin) & Hout).
  assert (Hreach : ∀ x, x ∈ reach h1 pl → h !! x = None).
  { intros x. unfold reach. rewrite Hpl1. intros Hx.
    apply elem_of_cons in Hx as [->|Hx]; [done|].
    rewrite Forall_forall in Hnew. by apply Hnew. }
  assert (Hfresh1 : ∀ x, h1 !! x = None → h !! x = None).
  { intros x Hx. destruct (h !! x) as [o|] eqn:Ho; [|done].
    by rewrite (lookup_weaken _ _ _ _ Ho Hsub) in Hx. }
  exists h2, xs. split; [done|]. split; [|split; [|split]].
  - destruct Hout as [Hr|Hn]; [by apply Hreach | by apply Hfresh1].
  - intros x Hx. destruct (Hxin x Hx) as [Hr|Hn];
      [by apply Hreach | by apply Hfresh1].
  - intros l o Ho. apply Hkeep; [by eapply lookup_weaken|].
    intros Hr. apply Hreach in Hr. congruence.
  - destruct drift_; [|done]. unfold list_iadd. by rewrite Hxs.
Qed.

(** X26. With [drift=True] the last entry of the list
    [get_noisy_pulses] returns is the processor's own drift object, not
    a copy, and it occurs nowhere else in the list; with [drift=False]
    the drift is not in the list. Either way the drift object is
    unchanged by the call. This holds for a [process_noise] that changes
    and returns only what it can reach from the list it is given or
    creates. *)
Theorem get_noisy_pulses_drift (self : Processor_ loc loc)
    (device_noise drift_ : bool) (h h' : gmap loc Obj) (out : loc)
    (items : list loc) (d : Drift) :
  frame_respecting NL →
  h !! pulses self = Some (OList items) →
  Forall (fun l => is_Some (h !! l)) items →
  h !! drift self = Some (ODrift d) →
  get_noisy_pulses self device_noise drift_ h = (h', out) →
  h' !! drift self = Some (ODrift d) ∧
  ∃ xs, (drift self ∉ xs) ∧
        h' !! out = Some (OList (if drift_ then xs ++ [drift self] else xs)).
Proof.
  intros Hframe Hl Hit Hdr Hg.
  destruct (get_noisy_pulses_parts self device_noise drift_ h h' out items
              Hframe Hl Hit Hg) as (h2 & xs & Hxs & Hout & Hnew & Hold & ->).
  assert (Hne : out ≠ drift self) by congruence.
  assert (Hnot : drift self ∉ xs).
  { intros Hin. apply Hnew in Hin. congruence. }
  destruct drift_.
  - split; [rewrite lookup_insert_ne by done; by apply Hold|].
    exists xs. split; [done|]. by rewrite lookup_insert_eq.
  - split; [by apply Hold|]. by exists xs.
Qed.

End MoreStoreTheory.

(** * Examples *)

Lemma add_control_cyclic_targets_witness :
  isherm sigmax = true ∧
  ∃ new : list Pulse,
    add_control (new_processor 3) (IsQobj sigmax) (TargetsList [0; 1]%Z)
                true None =
      Ok (set_pulses (new_processor 3) (pulses (new_processor 3) ++ new)) ∧
    length new = 3 ∧
    (∀ i, i < 3 →
       targets <$> new !! i =
       Some (map (fun t => ((t + Z.of_nat i) `mod` 3)%Z) [0; 1]%Z)) ∧
    (3 = 3 → [0; 1]%Z = [0; 1]%Z →
       map targets new = [[0; 1]; [1; 2]; [2; 0]]%Z).
Proof.
  split; [reflexivity|].
  apply (add_control_cyclic_targets (new_processor 3) sigmax [0; 1]%Z None).
  reflexivity.
Defined.

Lemma add_control_cyclic_label_witness :
  isherm sigmax = true ∧
  ∃ new : list Pulse,
    add_control (new_processor 3) (IsQobj sigmax) (TargetsList [0; 1]%Z)
                true (Some "sx") =
      Ok (set_pulses (new_processor 3) (pulses (new_processor 3) ++ new)) ∧
    length new = 3 ∧
    Forall (fun pulse => label pulse = Some "sx") new ∧
    Forall (fun pulse =>
              label pulse ≠ Some ("sx" +:+ "_" +:+ str_list (targets pulse)))
           new ∧
    (∀ p1 p2, p1 ∈ new → p2 ∈ new → label p1 = label p2).
Proof.
  split; [reflexivity|].
  apply (add_control_cyclic_label (new_processor 3) sigmax [0; 1]%Z "sx").
  reflexivity.
Defined.

(** C2, as stated, fails on a chain of near-duplicates: on the grid
    [0, 6e-11, 1.2e-10] the code drops [1.2e-10], whose gap to the point
    before it is [6e-11], although its gap to the previous retained
    point [0] exceeds the tolerance. *)
Lemma get_full_tlist_not_by_retained :
  get_full_tlist chain_processor default_tol = Some [0]%Q ∧
  full_tlist_by_retained chain_processor default_tol =
    Some [0; 1.2e-10]%Q ∧
  get_full_tlist chain_processor default_tol ≠
    full_tlist_by_retained chain_processor default_tol.
Proof.
  split; [by vm_compute|]. split; [by vm_compute|].
  vm_compute. discriminate.
Qed.

(** C7, as stated, fails for a callable coefficient on a pulse without a
    grid: the error raised is the validator's, about the missing grid, and
    no error about the type of the coefficient. *)
Lemma get_full_coeffs_not_type_error :
  (∃ pulse, pulse ∈ pulses callable_processor ∧
            coeff pulse = COther None) ∧
  get_full_coeffs callable_processor None =
    Raise (ValueError (msg_no_tlist 0)) ∧
  ¬ is_type_error (ValueError (msg_no_tlist 0)).
Proof.
  split; [|split].
  - eexists. split; [by left | reflexivity].
  - by vm_compute.
  - intros [[msg H]|H]; [discriminate|]. vm_compute in H. discriminate.
Qed.

(** C3, as stated, fails for a coefficient without [len()], such as a
    callable, on a pulse that has a grid: the pulse is neither constant
    nor accepted, yet the error raised is the [TypeError] of [len], not a
    validation error, and its message carries no position. *)
Lemma is_pulses_valid_no_position :
  (∃ pulse, pulses lenless_processor !! 0 = Some pulse ∧
            ¬ constant_pulse pulse ∧ ¬ well_formed_pulse pulse ∧
            is_Some (tlist pulse)) ∧
  (∃ msg, _is_pulses_valid lenless_processor = Raise (TypeError msg)) ∧
  (∀ msg, _is_pulses_valid lenless_processor ≠ Raise (ValueError msg)).
Proof.
  split; [|split].
  - eexists. split; [reflexivity|].
    assert (Hc : ¬ constant_pulse
                   (pulse_of sigmax (Some [0; 1]%Q) (COther None) None)).
    { intros [Hc|[b Hc]]; discriminate. }
    split; [exact Hc|]. split; [|by eexists].
    intros [Hw|(tl & n & _ & Hn & _)]; [by apply Hc | discriminate].
  - eexists. by vm_compute.
  - intros msg H. vm_compute in H. discriminate.
Qed.

(** C6 at two neighbouring pulses labelled ["sx"]: [remove_pulse] with
    that label deletes the first, skips the second, and a pulse labelled
    ["sx"] remains. *)
Lemma remove_pulse_label_skips_neighbour :
  ∃ self' : Processor,
    remove_pulse twin_processor IndicesNone (Some "sx") = Ok self' ∧
    pulses self' = [pulse_of sigmaz None CNone (Some "sx")] ∧
    Exists (fun pulse => label pulse = Some "sx") (pulses self').
Proof.
  eexists. split; [by vm_compute|]. split; [reflexivity|].
  by left.
Qed.

(** C9 at two pulses on the grid [0, 0.5, 1]: after [save_coeff] with the
    time column, what [read_coeff] returns as time list is the method
    [get_full_tlist] itself, not a grid. The pulses do receive the grid,
    and the coefficients read are the rows [get_full_coeffs] wrote. *)
Lemma read_coeff_returns_bound_method :
  match fs ← save_coeff saved_processor "coeffs.txt" true ∅;
        read_coeff saved_processor "coeffs.txt" true fs with
  | Ok (self', ReadPair t c) =>
    t = BoundMethod "get_full_tlist" ∧ (∀ g, t ≠ TlistValue g) ∧
    Forall (fun pulse =>
              ∃ g, tlist pulse = Some g ∧ Forall2 Qeq g [0; 0.5; 1]%Q)
           (pulses self') ∧
    ∃ r1 r2, c = Some [CArray r1; CArray r2] ∧
             Forall2 Qeq r1 [1; 2; 0]%Q ∧ Forall2 Qeq r2 [3; 4; 0]%Q
  | _ => False
  end.
Proof.
  vm_compute. split; [reflexivity|]. split; [discriminate|]. split.
  - repeat constructor; eexists; (split; [reflexivity|]);
      repeat constructor.
  - eexists _, _. split; [reflexivity|]. split; repeat constructor.
Qed.

Lemma get_full_tlist_spec_witness :
  get_full_tlist two_grid_processor default_tol = Some [0; 1; 2]%Q ∧
  length [0; 1; 2]%Q = 3.
Proof.
  destruct (get_full_tlist_spec two_grid_processor default_tol)
    as (_ & _ & H).
  apply H. reflexivity.
Defined.

Lemma is_pulses_valid_spec_witness :
  _is_pulses_valid short_coeff_processor =
    Raise (ValueError (msg_len_step 1)) ∧
  _is_pulses_valid lenless_processor =
    Raise (TypeError "object has no len()").
Proof.
  split.
  - destruct (is_pulses_valid_spec short_coeff_processor)
      as (_ & _ & H & _).
    destruct (H 1 short_coeff_pulse) as (_ & Hstep & _).
    + reflexivity.
    + apply Forall_cons. split; [|constructor]. left. right. by exists true.
    + intros [Hc|[b Hc]]; discriminate.
    + apply (Hstep [0; 1; 2]%Q 1%Z); try reflexivity; simpl; lia.
  - destruct (is_pulses_valid_spec lenless_processor) as (_ & _ & H & _).
    destruct (H 0 (pulse_of sigmax (Some [0; 1]%Q) (COther None) None))
      as (_ & _ & _ & Hlen).
    + reflexivity.
    + constructor.
    + intros [Hc|[b Hc]]; discriminate.
    + destruct (Hlen [0; 1]%Q (TypeError "object has no len()"))
        as [Hr _]; [reflexivity..|exact Hr].
Defined.

Lemma get_full_coeffs_spec_witness :
  get_full_coeffs symbolic_processor None =
  Raise (ValueError msg_unsupported_coeff).
Proof.
  destruct (get_full_coeffs_spec symbolic_processor None)
    as (_ & H & _).
  apply (H [pulse_of sigmax None (CBool true) None] symbolic_pulse []
           (Some 3)).
  - reflexivity.
  - reflexivity.
  - by vm_compute.
  - repeat constructor. eexists. by vm_compute.
Defined.


Lemma run_analytically_spec_witness :
  let tl := [0; 0.5; 1]%Q in
  let rows := [[1; 2; 0]; [3; 4; 0]]%Q in
  _is_pulses_valid driven_processor = Ok true ∧
  get_full_tlist driven_processor default_tol = Some tl ∧
  (proc_spline_kind driven_processor = "step_func" ∨
   proc_spline_kind driven_processor = "cubic") ∧
  generator driven_processor rows 0 =
    Some (SAdd (SExpand sigmaz [1%Z] [2; 2])
               (SAdd (SScale 1 (SExpand sigmax [0%Z] [2; 2]))
                     (SScale 3 (SExpand sigmaz [0%Z] [2; 2])))) ∧
  ∃ steps,
    run_analytically (SC := base_class) driven_processor None =
      Ok (option_list None ++ steps ++
          phase_entry (SC := base_class) driven_processor) ∧
    length steps = length tl - 1 ∧
    ∀ n t_n t_next, tl !! n = Some t_n → tl !! S n = Some t_next →
      ∃ G, generator driven_processor rows n = Some G ∧
           steps !! n =
           Some (eliminate_auxillary_modes (Subclass := base_class)
                   (expm (qscale (t_next - t_n) (q_minus_i G)))).
Proof.
  intros tl rows.
  split; [by vm_compute|]. split; [by vm_compute|].
  split; [by left|]. split; [reflexivity|].
  apply (run_analytically_spec (SC := base_class) driven_processor None
           tl rows).
  - by vm_compute.
  - by vm_compute.
  - by left.
  - repeat constructor; eexists; (split; [reflexivity|]);
      (split; [by vm_compute | reflexivity]).
Defined.

Lemma sym_noise_frame : frame_respecting sym_noise.
Proof.
  intros arg items ns d r1 r2 dn h h' out Harg Hp. simpl in Hp.
  assert (Hreach : reach h arg = arg :: items).
  { unfold reach. by rewrite Harg. }
  rewrite Hreach. destruct dn.
  - unfold alloc in Hp. simpl in Hp.
    set (l := fresh (dom h)) in *.
    assert (Hl : h !! l = None).
    { apply not_elem_of_dom. apply is_fresh. }
    assert (Hne : l ≠ arg) by congruence.
    unfold list_iadd in Hp. rewrite lookup_insert_ne in Hp by done.
    rewrite Harg in Hp. apply pair_equal_spec in Hp as [<- <-].
    split; [|split].
    + intros l0 o0 Ho Hn0. apply not_elem_of_cons in Hn0 as [Hn0 _].
      rewrite lookup_insert_ne by done.
      rewrite lookup_insert_ne by congruence. done.
    + exists (items ++ [l]). split; [by rewrite lookup_insert_eq|].
      intros x Hx. apply elem_of_app in Hx as [Hx|Hx].
      * left. by right.
      * apply list_elem_of_singleton in Hx as ->. by right.
    + left. by left.
  - apply pair_equal_spec in Hp as [<- <-].
    split; [done|]. split.
    + exists items. split; [done|]. intros x Hx. left. by right.
    + left. by left.
Qed.

Lemma get_noisy_pulses_frame_witness :
  let r := get_noisy_pulses stored_processor true true stored_pulses in
  let items := [2%positive; 3%positive] in
  r.1 !! pulses stored_processor = Some (OList items) ∧
  (∀ l, l ∈ items → r.1 !! l = stored_pulses !! l) ∧
  r.2 ≠ pulses stored_processor ∧
  ∃ ys, r.1 !! r.2 = Some (OList ys) ∧ ∀ y, y ∈ ys → y ∉ items.
Proof.
  intros r items.
  apply (get_noisy_pulses_frame stored_processor true true stored_pulses
           r.1 r.2 items (mkDrift [])).
  - exact sym_noise_frame.
  - reflexivity.
  - repeat constructor; eexists; reflexivity.
  - reflexivity.
  - subst r. apply surjective_pairing.
Defined.

(** ** Further examples *)

(** Writing and reading is not the identity on doubles: the double
    0.30000000000000004 is written as 0.3000000000000000 and read as the
    double nearest to 0.3, which is more than half of 1e-16 below it. *)
Lemma reread_nearest_double :
  let x := (5404319552844596 # 2 ^ 54)%Q in
  fmt_1_16f x = 3000000000000000%Z ∧
  reread x = (5404319552844595 # 2 ^ 54)%Q ∧
  (1e-16 / 2 < x - reread x)%Q.
Proof. split; [by vm_compute|]. split; by vm_compute. Qed.

Lemma add_control_keeps_validation_witness :
  ∃ self',
    add_control saved_processor (IsQobj sigmax) (TargetsList [0%Z]) false
                None = Ok self' ∧
    _is_pulses_valid self' = _is_pulses_valid saved_processor.
Proof.
  eexists. split; [by vm_compute|].
  apply (add_control_keeps_validation saved_processor _ (@IsQobj sym_qobj sigmax)
           (TargetsList [0%Z]) false None).
  by vm_compute.
Defined.

Lemma add_control_keeps_full_tlist_witness :
  ∃ self',
    add_control saved_processor (IsQobj sigmax) (TargetsList [0%Z]) false
                None = Ok self' ∧
    get_full_tlist self' default_tol =
    get_full_tlist saved_processor default_tol.
Proof.
  eexists. split; [by vm_compute|].
  apply (add_control_keeps_full_tlist saved_processor _ (@IsQobj sym_qobj sigmax)
           (TargetsList [0%Z]) false None default_tol).
  by vm_compute.
Defined.

Lemma add_control_cyclic_targets_in_range_witness :
  ∃ new,
    add_control (new_processor 3) (IsQobj sigmax) (TargetsList [5; -1]%Z)
                true None =
      Ok (set_pulses (new_processor 3) (pulses (new_processor 3) ++ new)) ∧
    ∀ pulse t, pulse ∈ new → t ∈ targets pulse →
               (0 ≤ t < Z.of_nat (num_qubits (new_processor 3)))%Z.
Proof.
  apply (add_control_cyclic_targets_in_range (new_processor 3) sigmax
           [5; -1]%Z None).
  - reflexivity.
  - simpl. lia.
Defined.

Lemma add_drift_effect_witness :
  ∃ self',
    add_drift (new_processor 2) (IsQobj sigmaz) (TargetsList [1%Z]) false
      = Ok self' ∧
    pulses self' = pulses (new_processor 2) ∧
    compute_H_drift self' =
      ham_add (compute_H_drift (new_processor 2))
              (HQobj (drift_get_qobj (sigmaz, [1%Z])
                                     (dims (new_processor 2)))).
Proof.
  destruct (add_drift_effect (new_processor 2) sigmaz [1%Z]) as [H _].
  - reflexivity.
  - exact H.
Defined.

Lemma set_pulse_mode_discrete_valid_witness :
  ∃ self', set_pulse_mode saved_processor "discrete" = Ok self' ∧
           _is_pulses_valid self' = Ok true.
Proof.
  apply (set_pulse_mode_discrete_valid saved_processor). by vm_compute.
Defined.

Lemma add_pulse_keeps_valid_witness :
  let pulse := mkPulse sigmaz [1%Z] (Some [0; 1]%Q) (CArray [1; 2]%Q)
                       None None in
  _is_pulses_valid (add_pulse saved_processor pulse) = Ok true ∧
  take (length (pulses saved_processor))
       (pulses (add_pulse saved_processor pulse)) =
    pulses saved_processor ∧
  ∃ pulse', pulses (add_pulse saved_processor pulse) =
              pulses saved_processor ++ [pulse'] ∧
            is_Some (spline_kind pulse') ∧
            tlist pulse' = tlist pulse ∧ coeff pulse' = coeff pulse.
Proof.
  intros pulse. apply (add_pulse_keeps_valid saved_processor pulse).
  - by vm_compute.
  - right. exists [0; 1]%Q, 2%Z. split; [reflexivity|].
    split; reflexivity.
Defined.

Lemma remove_pulse_label_all_witness :
  ∃ self', remove_pulse alternating_processor IndicesNone (Some "sx")
             = Ok self' ∧
    pulses self' =
      filter (fun p => label p ≠ Some "sx") (pulses alternating_processor) ∧
    Forall (fun p => label p ≠ Some "sx") (pulses self').
Proof.
  apply (remove_pulse_label_all alternating_processor (Some "sx")).
  simpl. split; [|split; [|exact I]]; intros [H1 H2]; discriminate.
Defined.

Lemma remove_pulse_index_bounds_witness :
  remove_pulse saved_processor (IndicesInt (-1)) None =
    Ok (set_pulses saved_processor
          (delete 1 (pulses saved_processor))) ∧
  remove_pulse saved_processor (IndicesInt 2) None =
    Raise (IndexError "list assignment index out of range").
Proof.
  split.
  - destruct (remove_pulse_index_bounds saved_processor (-1) None)
      as (_ & H & _).
    apply H. simpl. lia.
  - destruct (remove_pulse_index_bounds saved_processor 2 None)
      as (_ & _ & H).
    apply H. simpl. lia.
Defined.

Lemma remove_pulse_indices_witness :
  remove_pulse alternating_processor (IndicesList (map Z.of_nat [0; 2]))
               None =
  Ok (set_pulses alternating_processor
        (without_positions [0; 2] 0 (pulses alternating_processor))).
Proof.
  apply (remove_pulse_indices alternating_processor [0; 2] None).
  - apply NoDup_cons. split; [|apply NoDup_singleton].
    intros H. apply list_elem_of_singleton in H. discriminate.
  - repeat constructor.
Defined.

Lemma remove_pulse_keeps_valid_witness :
  ∃ self', remove_pulse saved_processor (IndicesInt 0) None = Ok self' ∧
    pulses self' `sublist_of` pulses saved_processor ∧
    (_is_pulses_valid saved_processor = Ok true →
     _is_pulses_valid self' = Ok true).
Proof.
  eexists. split; [by vm_compute|].
  apply (remove_pulse_keeps_valid saved_processor _ (IndicesInt 0) None).
  by vm_compute.
Defined.

Lemma set_coeffs_rows_witness :
  ∃ self', set_coeffs saved_processor (Arr2 [[5; 6; 7]%Q]) = Ok self' ∧
    length (pulses self') = length (pulses saved_processor) ∧
    (∀ j row, [[5; 6; 7]%Q] !! j = Some row →
       coeff <$> pulses self' !! j = Some (CArray row)) ∧
    (∀ j, (length [[5; 6; 7]%Q] ≤ j)%nat →
       pulses self' !! j = pulses saved_processor !! j) ∧
    map tlist (pulses self') = map tlist (pulses saved_processor) ∧
    (pulses saved_processor ≠ [] →
     coeffs self' = Some (map coeff (pulses self'))).
Proof.
  destruct (set_coeffs_rows saved_processor [[5; 6; 7]%Q]) as [H _].
  apply H. simpl. lia.
Defined.

Lemma get_full_tlist_gaps_witness :
  get_full_tlist two_grid_processor default_tol = Some [0; 1; 2]%Q ∧
  StronglySorted Qlt [0; 1; 2]%Q ∧ gaps_exceed default_tol [0; 1; 2]%Q.
Proof.
  split; [by vm_compute|].
  apply (get_full_tlist_gaps two_grid_processor default_tol).
  by vm_compute.
Defined.

Lemma get_full_tlist_shared_grid_witness :
  get_full_tlist (set_all_tlist twin_processor (Some [0; 1; 2]%Q))
                 default_tol = Some [0; 1; 2]%Q.
Proof.
  apply (get_full_tlist_shared_grid twin_processor [0; 1; 2]%Q default_tol).
  - discriminate.
  - repeat constructor.
  - simpl. repeat split.
Defined.

Lemma run_analytically_no_grid_witness :
  raises (run_analytically (SC := base_class) twin_processor None) ∧
  (_is_pulses_valid twin_processor = Ok true →
   run_analytically (SC := base_class) twin_processor None =
   Raise (TypeError "object of type 'NoneType' has no len()")).
Proof.
  apply (run_analytically_no_grid (SC := base_class) twin_processor None).
  repeat constructor.
Defined.

Lemma grid_without_coeff_witness :
  let self' := set_all_tlist twin_processor (Some [0; 1]%Q) in
  _is_pulses_valid self' = Ok true ∧
  get_full_coeffs self' None = Raise (ValueError msg_unsupported_coeff) ∧
  run_analytically (SC := base_class) self' None =
    Raise (ValueError msg_unsupported_coeff).
Proof.
  apply (grid_without_coeff (SC := base_class) twin_processor [0; 1]%Q
           None None).
  - discriminate.
  - repeat constructor.
Defined.

Lemma find_pulse_after_add_control_witness :
  let new := mkPulse sigmaz [1%Z] None CNone (Some "step_func")
                     (Some "sz") in
  ∃ self',
    add_control saved_processor (IsQobj sigmaz) (TargetsList [1%Z]) false
                (Some "sz") = Ok self' ∧
    find_pulse self' None (NameInt 2) = Found new ∧
    find_pulse self' None (NameInt (-1)) = Found new ∧
    find_pulse self' (Some {["sz" := 2%Z]}) (NameStr "sz") = Found new ∧
    find_pulse self' (Some {["sz" := 2%Z]}) (NameStr "sy") =
      RaisedKeyError (msg_undefined "sy").
Proof.
  intros new.
  destruct (find_pulse_after_add_control saved_processor sigmaz [1%Z]
              (Some "sz") None)
    as (self' & Hadd & Hlast & Hneg & _ & Hname & Hkey & _).
  - reflexivity.
  - exists self'. split; [exact Hadd|]. split; [exact Hlast|].
    split; [exact Hneg|]. split.
    + apply (Hname _ "sz"); reflexivity.
    + apply Hkey. reflexivity.
Defined.

Lemma get_noisy_pulses_drift_witness :
  let r := get_noisy_pulses stored_processor true true stored_pulses in
  r.1 !! drift stored_processor = Some (ODrift (mkDrift [])) ∧
  ∃ xs, (drift stored_processor ∉ xs) ∧
        r.1 !! r.2 = Some (OList (xs ++ [drift stored_processor])).
Proof.
  intros r.
  apply (get_noisy_pulses_drift stored_processor true true stored_pulses
           r.1 r.2 [2%positive; 3%positive] (mkDrift [])).
  - exact sym_noise_frame.
  - reflexivity.
  - repeat constructor; eexists; reflexivity.
  - reflexivity.
  - subst r. apply surjective_pairing.
Defined.

Lemma save_read_round_trip_witness :
  ∃ fs' self' out tl' rows',
    save_coeff saved_processor "coeffs.txt" true ∅ = Ok fs' ∧
    read_coeff saved_processor "coeffs.txt" true fs' = Ok (self', out) ∧
    read_back tl' [0; 0.5; 1]%Q ∧
    Forall2 read_back rows' [[1; 2; 0]; [3; 4; 0]]%Q ∧
    length rows' = length (pulses saved_processor) ∧
    pulses self' =
    zip_with (fun p row => set_coeff (set_tlist p (Some tl')) (CArray row))
             (pulses saved_processor) rows'.
Proof.
  apply (save_read_round_trip saved_processor "coeffs.txt" ∅
           [[1; 2; 0]; [3; 4; 0]]%Q [0; 0.5; 1]%Q).
  - by vm_compute.
  - by vm_compute.
  - simpl. lia.
  - repeat constructor.
Defined.

Lemma save_read_single_point_witness :
  ∃ fs' msg,
    save_coeff single_point_processor "coeffs.txt" true ∅ = Ok fs' ∧
    read_coeff single_point_processor "coeffs.txt" true fs' =
    Raise (IndexError msg).
Proof.
  apply (save_read_single_point single_point_processor "coeffs.txt" ∅
           [[1%Q]; [0%Q]] [0%Q]).
  - by vm_compute.
  - by vm_compute.
  - reflexivity.
  - repeat constructor.
Defined.

Lemma save_read_no_time_witness :
  ∃ fs' self' out rows',
    save_coeff saved_processor "coeffs.txt" false ∅ = Ok fs' ∧
    read_coeff saved_processor "coeffs.txt" false fs' = Ok (self', out) ∧
    Forall2 read_back rows' [[1; 2; 0]; [3; 4; 0]]%Q ∧
    length rows' = length (pulses saved_processor) ∧
    pulses self' =
    zip_with (fun p row => set_coeff p (CArray row))
             (pulses saved_processor) rows'.
Proof.
  apply (save_read_no_time saved_processor "coeffs.txt" ∅
           [[1; 2; 0]; [3; 4; 0]]%Q 3).
  - by vm_compute.
  - simpl. lia.
  - lia.
  - repeat constructor.
Defined.

Lemma save_read_no_time_single_pulse_witness :
  ∃ fs', save_coeff one_pulse_processor "coeffs.txt" false ∅ = Ok fs' ∧
    read_coeff one_pulse_processor "coeffs.txt" false fs' =
    Raise (IndexError "list index out of range").
Proof.
  apply (save_read_no_time_single_pulse one_pulse_processor "coeffs.txt" ∅
           [[1; 2; 0]%Q] 3).
  - by vm_compute.
  - reflexivity.
  - lia.
  - repeat constructor.
Defined.
